(** * The consensus engine of internal/chain/engine.go

    A shallow embedding of the block finalization and header verification
    engine (package [chain]) and the properties of its specification.

    The engine talks to collaborators that live in other packages (the
    chain reader, the state database, the BLS and quorum code, the slash
    and reward packages).  They are taken as parameters: the methods of an
    opaque object are the fields of a record, package level functions are
    the fields of [Env].  Every call that leaves the engine is recorded in
    a trace of [Event]s, so that "is called", "is not consulted" and "runs
    before" are statements about the trace.

    Left out: the logging calls (utils.Logger, utils.AnalysisStart and
    utils.AnalysisEnd), which do not bear on results; the formatted
    arguments of error messages; VerifyHeaders, which runs VerifyHeader on
    each header in a goroutine. *)

From Stdlib Require Import ZArith Lia.
From Stdlib Require Import Strings.Byte.
From stdpp Require Import base option list gmap strings sorting.

Local Open Scope Z_scope.

(** ** Bytes, integers and errors *)

#[global] Instance byte_eq_decision : EqDecision byte := Byte.byte_eq_dec.

Module common.
(** common.Hash is [32]byte; common.Address is [20]byte, read as a number. *)
Abbreviation Hash := (list byte).
Abbreviation Address := N.
End common.
Abbreviation Address := common.Address.

(** The Uint64 method of big.Int: the low 64 bits of the absolute value. *)
Definition Uint64 (x : Z) : Z := Z.abs x mod 2 ^ 64.

(** Subtraction on uint64 wraps around. *)
Definition sub64 (x y : Z) : Z := (x - y) mod 2 ^ 64.

(** The conversion int64(u) of a uint64. *)
Definition toInt64 (u : Z) : Z := if u <? 2 ^ 63 then u else u - 2 ^ 64.

Module errors.
(** The error values the engine builds (github.com/pkg/errors) and the
    ones it receives from a collaborator. *)
Inductive error :=
| New (msg : string)
| Errorf (format : string) (args : list Z)
| Wrap (cause : error) (msg : string)
| ErrUnknownAncestor
| External (code : N).
End errors.
Abbreviation error := errors.error.

(** A Go result [(value, error)]. *)
Inductive result (A : Type) :=
| Ok (a : A)
| Err (e : error).
Arguments Ok {A} a.
Arguments Err {A} e.

Definition isOk {A} (r : result A) : bool :=
  match r with Ok _ => true | Err _ => false end.

(** ** The bounded LRU cache (github.com/hashicorp/golang-lru) *)

Module lru.
Section Cache.
Context {K V : Type} `{EqDecision K}.

(** Modelled from the spec: the library is not part of the sources; the
    spec asks for a bounded LRU.  [items] is the eviction list, most
    recently used entry first.  The library refuses to build a cache whose
    size is not positive. *)
Record Cache := { size : positive; items : list (K * V) }.

Definition New (n : positive) : Cache := {| size := n; items := [] |}.

Fixpoint find (k : K) (l : list (K * V)) : option V :=
  match l with
  | [] => None
  | (k', v) :: l' => if decide (k = k') then Some v else find k l'
  end.

Fixpoint remove (k : K) (l : list (K * V)) : list (K * V) :=
  match l with
  | [] => []
  | (k', v) :: l' => if decide (k = k') then remove k l' else (k', v) :: remove k l'
  end.

(** Get moves a found entry to the front. *)
Definition Get (k : K) (c : Cache) : option V * Cache :=
  match find k (items c) with
  | Some v => (Some v, {| size := size c; items := (k, v) :: remove k (items c) |})
  | None => (None, c)
  end.

(** Add updates and moves to the front, or pushes a new entry and
    evicts the oldest one when the list outgrows [size]. *)
Definition Add (k : K) (v : V) (c : Cache) : Cache :=
  match find k (items c) with
  | Some _ => {| size := size c; items := (k, v) :: remove k (items c) |}
  | None =>
      let l := (k, v) :: items c in
      {| size := size c;
         items := if (Pos.to_nat (size c) <? length l)%nat then removelast l else l |}
  end.

Definition Contains (k : K) (c : Cache) : bool :=
  match find k (items c) with Some _ => true | None => false end.
End Cache.
Arguments Cache : clear implicits.
End lru.

(** ** The data the engine consumes *)

Module bls.
Abbreviation PublicKey := (list byte).
(** bls.SerializedSignature, [96]byte. *)
Abbreviation SerializedSignature := (list byte).
Record Mask := { Bitmap : list byte; AggregatePublic : PublicKey }.
(** Modelled from the spec: package bls is not part of the sources; an
    aggregate signature is verified "against the mask's aggregate public
    key over the commit payload". *)
Record Sign := { VerifyHash : PublicKey -> list byte -> bool }.
End bls.

Module quorum.
(** Modelled from the spec: package quorum is not part of the sources; a
    verifier answers whether a mask reaches quorum. *)
Record Verifier := { IsQuorumAchievedByMask : bls.Mask -> bool }.
End quorum.

Module shard.
(** Modelled from the spec: package shard is not part of the sources.  A
    sub-committee and a shard state are given by the methods the engine
    calls on them: the ordered BLS public keys, the epoch the state belongs
    to, the sub-committee of a shard id, the staked validators it lists. *)
Record Committee := {
  ShardID : Z;
  BLSPublicKeys : result (list bls.PublicKey) }.

Record State := {
  Epoch : option Z;
  FindCommitteeByID : Z -> result Committee;
  (** StakedValidators().Addrs *)
  StakedValidators : list Address }.
End shard.

Module params.
(** Modelled from the spec: chain.Config() "exposes the
    staking/Redelegation/QuickUnlock/NoEarlyUnlock/S3/PreStaking/IsStaking
    epoch predicates". *)
Record ChainConfig := {
  IsStaking : Z -> bool;
  IsPreStaking : Z -> bool;
  IsRedelegation : Z -> bool;
  IsQuickUnlock : Z -> bool;
  IsNoEarlyUnlock : Z -> bool;
  IsS3 : Z -> bool }.
End params.

Module block.
(** Modelled from the spec: package block is not part of the sources; the
    header is an opaque input that exposes these values and the two
    setters. *)
Record Header := {
  Hash : common.Hash;
  ParentHash : common.Hash;
  Number : Z;
  Epoch : Z;
  ShardID : Z;
  ViewID : Z;
  Root : common.Hash;
  ShardState : list byte;
  LastCommitSignature : bls.SerializedSignature;
  LastCommitBitmap : list byte;
  IsLastBlockInEpoch : bool;
  (** header.GetShardState(): the decoded shard state blob. *)
  GetShardState : result shard.State }.

Definition SetViewID (h : Header) (v : Z) : Header :=
  {| Hash := Hash h; ParentHash := ParentHash h; Number := Number h;
     Epoch := Epoch h; ShardID := ShardID h; ViewID := v; Root := Root h;
     ShardState := ShardState h;
     LastCommitSignature := LastCommitSignature h;
     LastCommitBitmap := LastCommitBitmap h;
     IsLastBlockInEpoch := IsLastBlockInEpoch h;
     GetShardState := GetShardState h |}.

Definition SetRoot (h : Header) (r : list byte) : Header :=
  {| Hash := Hash h; ParentHash := ParentHash h; Number := Number h;
     Epoch := Epoch h; ShardID := ShardID h; ViewID := ViewID h; Root := r;
     ShardState := ShardState h;
     LastCommitSignature := LastCommitSignature h;
     LastCommitBitmap := LastCommitBitmap h;
     IsLastBlockInEpoch := IsLastBlockInEpoch h;
     GetShardState := GetShardState h |}.
End block.

Module engine.
(** Modelled from the spec: the capability set of engine.ChainReader, read
    only.  SuperCommitteeForNextEpoch takes another chain reader and is a
    field of [Env]. *)
Record ChainReader := {
  ShardID : Z;
  Config : params.ChainConfig;
  CurrentHeader : block.Header;
  (** CurrentBlock().Epoch() *)
  CurrentBlockEpoch : Z;
  GetHeader : common.Hash -> Z -> option block.Header;
  ReadShardState : Z -> result shard.State;
  ReadValidatorList : result (list Address) }.
End engine.

Module staking.
(** Modelled from the spec: package staking/types is not part of the
    sources; a validator wrapper holds LastEpochInCommittee and a sequence
    of delegations, each with a DelegatorAddress and pending undelegation
    entries tagged with an epoch. *)
Record Delegation := {
  DelegatorAddress : Address;
  Amount : Z;
  (** pending undelegations: amount and epoch *)
  Undelegations : list (Z * Z) }.

Record ValidatorWrapper := {
  LastEpochInCommittee : option Z;
  Delegations : list Delegation }.
End staking.

Module slash.
(** Modelled from the spec: package slash is not part of the sources; a
    record carries an evidence with height, viewID, shardID and epoch and
    the offending signer. *)
Record Moment := { Epoch : Z; ShardID : Z }.
Record Evidence := { moment : Moment; Height : Z; ViewID : Z; Offender : Address }.
Record Record_ := { evidence : Evidence; Reporter : Address }.
Abbreviation Records := (list Record_).
(** The summary slash.Apply returns. *)
Record Application := { TotalSlashed : Z; TotalBeneficiaryReward : Z }.
End slash.

Module state.
(** Modelled from the spec: package state is not part of the sources;
    state.DB holds the account balances and the validator wrappers, handed
    out as mutable records by ValidatorWrapper(address). *)
Record DB := {
  validators : gmap N staking.ValidatorWrapper;
  balances : gmap N Z }.

Definition ValidatorWrapper (a : Address) (s : DB) : result staking.ValidatorWrapper :=
  match validators s !! a with
  | Some w => Ok w
  | None => Err (errors.New "address not present in state")
  end.

Definition setValidatorWrapper (a : Address) (w : staking.ValidatorWrapper) (s : DB) : DB :=
  {| validators := <[a := w]> (validators s); balances := balances s |}.

Definition AddBalance (a : Address) (amount : Z) (s : DB) : DB :=
  {| validators := validators s;
     balances := <[a := default 0 (balances s !! a) + amount]> (balances s) |}.
End state.

Module types.
(** types.NewBlock(header, txs, receipts, outcxs, incxs, stks); the
    transactions and receipts are opaque to the engine. *)
Record Block := {
  header : block.Header;
  txs : list N; receipts : list N; outcxs : list N; incxs : list N; stks : list N }.
End types.

(** ** The engine's own types *)

(** The grouping key of applySlashes (a type local to that function). *)
Record keyStruct := {
  height : Z;
  viewID : Z;
  shardID : Z;
  epoch : Z }.

#[global] Instance keyStruct_eq_decision : EqDecision keyStruct.
Proof. solve_decision. Defined.

(** Support 512 at most validator nodes *)
Definition bitmapKeyBytes : nat := 64.

(** verifiedSigKey is the key for caching header verification results *)
Record verifiedSigKey := {
  blockHash : common.Hash;
  signature : bls.SerializedSignature;
  bitmap : list byte }.

#[global] Instance verifiedSigKey_eq_decision : EqDecision verifiedSigKey.
Proof. solve_decision. Defined.

(** epochCtxKey is the key for caching epochCtx *)
Record epochCtxKey := {
  ecShardID : Z;
  ecEpoch : Z }.

#[global] Instance epochCtxKey_eq_decision : EqDecision epochCtxKey.
Proof. solve_decision. Defined.

(** epochCtx is the epoch's context used for signature verification. *)
Record epochCtx := {
  qrVerifier : quorum.Verifier;
  pubKeys : list bls.PublicKey }.

Definition verifiedSigCacheSize : positive := 20.
Definition epochCtxCacheSize : positive := 20.

Record engineImpl := {
  beacon : option engine.ChainReader;
  epochCtxCache : lru.Cache epochCtxKey (option epochCtx);
  verifiedSigCache : lru.Cache verifiedSigKey unit }.

(** NewEngine creates Engine with some cache *)
Definition NewEngine : engineImpl :=
  {| beacon := None;
     epochCtxCache := lru.New epochCtxCacheSize;
     verifiedSigCache := lru.New verifiedSigCacheSize |}.

Definition Beaconchain (e : engineImpl) : option engine.ChainReader := beacon e.

Definition SetBeaconchain (beaconchain : option engine.ChainReader) (e : engineImpl) : engineImpl :=
  {| beacon := beaconchain;
     epochCtxCache := epochCtxCache e;
     verifiedSigCache := verifiedSigCache e |}.

(** ** Calls that leave the engine *)

Inductive Event :=
| EvGetHeader (hash : common.Hash) (number : Z)
| EvReadShardState (epoch : Z)
| EvCompute (epoch : Z)
| EvSuperCommitteeForNextEpoch (verify : bool)
| EvReadValidatorList
| EvDecodeSigBitmap (sig : bls.SerializedSignature) (bitmap : list byte)
| EvIsQuorumAchievedByMask
| EvVerifyHash (payload : list byte)
| EvRemoveUnlockedUndelegations (validator : Address) (i : nat)
    (epoch : Z) (lastEpochInCommittee : option Z) (lockPeriod : Z) (noEarlyUnlock : bool)
| EvAddBalance (addr : Address) (amount : Z)
| EvSetLastEpochInCommittee (addr : Address) (epoch : option Z)
| EvComputeAndMutateEPOSStatus (addr : Address)
| EvAccumulateRewardsAndCountSigs (ok : bool)
| EvApplySlashes (doubleSigners : slash.Records)
| EvSlashApply (records : slash.Records) (rate : Z)
| EvIntermediateRoot (isS3 : bool).

(** The engine with its two caches, the state database handed to
    Finalize, and the calls made so far (oldest first). *)
Record World := {
  eng : engineImpl;
  statedb : state.DB;
  trace : list Event }.

(** ** The collaborators *)

Record Env := {
  (** shard.BeaconChainShardID *)
  BeaconChainShardID : Z;
  (** staking.LockPeriodInEpoch and staking.LockPeriodInEpochV2 *)
  LockPeriodInEpoch : Z;
  LockPeriodInEpochV2 : Z;
  (** bc.SuperCommitteeForNextEpoch(beacon, header, verify) *)
  SuperCommitteeForNextEpoch :
    engine.ChainReader -> engine.ChainReader -> block.Header -> bool -> result shard.State;
  (** shard.EncodeWrapper(shardState, isStaking) *)
  EncodeWrapper : shard.State -> bool -> result (list byte);
  (** committee.WithStakingEnabled.Compute(epoch, chain) *)
  Compute : Z -> engine.ChainReader -> result shard.State;
  (** quorum.NewVerifier(committee, epoch, isStaking) *)
  NewVerifier : shard.Committee -> Z -> bool -> result quorum.Verifier;
  (** DecodeSigBitmap(sig, bitmap, pubKeys), of this package *)
  DecodeSigBitmap :
    bls.SerializedSignature -> list byte -> list bls.PublicKey -> result (bls.Sign * bls.Mask);
  (** signature.ConstructCommitPayload(chain, epoch, hash, number, viewID) *)
  ConstructCommitPayload : engine.ChainReader -> Z -> common.Hash -> Z -> Z -> list byte;
  (** delegation.RemoveUnlockedUndelegations(epoch, lastEpochInCommittee,
      lockPeriod, noEarlyUnlock): the delegation left and the total withdrawn *)
  RemoveUnlockedUndelegations :
    staking.Delegation -> Z -> option Z -> Z -> bool -> staking.Delegation * Z;
  (** availability.ComputeAndMutateEPOSStatus(chain, state, addr) *)
  ComputeAndMutateEPOSStatus :
    engine.ChainReader -> state.DB -> Address -> result unit * state.DB;
  (** AccumulateRewardsAndCountSigs(chain, state, header, beacon, sigsReady), of
      this package; the channel is handed through, it is read as the value
      it will deliver *)
  AccumulateRewardsAndCountSigs :
    engine.ChainReader -> state.DB -> block.Header -> option engine.ChainReader -> bool ->
    result Z * state.DB;
  (** lookupVotingPower(epoch, subComm), of this package *)
  lookupVotingPower : Z -> shard.Committee -> result Z;
  (** slash.Rate(votingPower, records) and slash.Apply(chain, state, records, rate) *)
  Rate : Z -> slash.Records -> Z;
  Apply :
    engine.ChainReader -> state.DB -> slash.Records -> Z -> result slash.Application * state.DB;
  (** state.IntermediateRoot(isS3) *)
  IntermediateRoot : state.DB -> bool -> common.Hash;
  (** The order in which a range loop yields the keys of a map.  Go leaves
      it unspecified: any permutation of the keys. *)
  mapRange : list keyStruct -> list keyStruct;
  (** sort.SliceStable on more than 20 elements (insertion sorted blocks
      of 20, merged by symmetric merges). *)
  stableLarge : (keyStruct -> keyStruct -> bool) -> list keyStruct -> list keyStruct }.

(** ** The monad of the engine: a world, and a result or an error *)

Definition M (A : Type) : Type := World -> result A * World.

#[global] Instance M_ret : MRet M := fun A a w => (Ok a, w).

#[global] Instance M_bind : MBind M := fun A B f m w =>
  match m w with
  | (Ok a, w') => f a w'
  | (Err e, w') => (Err e, w')
  end.

Definition fail {A} (e : error) : M A := fun w => (Err e, w).

Definition lift {A} (r : result A) : M A := fun w => (r, w).

(** Replace the error of [m], as in
    [if err != nil { return errors.New(..) }]. *)
Definition mapErr {A} (f : error -> error) (m : M A) : M A := fun w =>
  match m w with
  | (Ok a, w') => (Ok a, w')
  | (Err e, w') => (Err (f e), w')
  end.

Definition logEvent (ev : Event) (w : World) : World :=
  {| eng := eng w; statedb := statedb w; trace := trace w ++ [ev] |}.

Definition log (ev : Event) : M unit := fun w => (Ok tt, logEvent ev w).

(** A read-only call of a collaborator. *)
Definition call {A} (ev : Event) (r : result A) : M A := fun w => (r, logEvent ev w).

(** A call of a collaborator that may mutate the state database. *)
Definition callDB {A} (ev : Event) (f : state.DB -> result A * state.DB) : M A := fun w =>
  let '(r, s) := f (statedb w) in
  (r, {| eng := eng w; statedb := s; trace := trace w ++ [ev] |}).

Definition getDB : M state.DB := fun w => (Ok (statedb w), w).

Definition modifyDB (f : state.DB -> state.DB) : M unit := fun w =>
  (Ok tt, {| eng := eng w; statedb := f (statedb w); trace := trace w |}).

Definition modifyEngine {A} (f : engineImpl -> A * engineImpl) : M A := fun w =>
  let '(a, e) := f (eng w) in
  (Ok a, {| eng := e; statedb := statedb w; trace := trace w |}).

(** [for _, x := range l { if err := f(x); err != nil { return err } }] *)
Fixpoint forM_ {A} (l : list A) (f : A -> M unit) : M unit :=
  match l with
  | [] => mret tt
  | x :: l' => _ ← f x; forM_ l' f
  end.

(** ** The engine *)

Section Engine.
Variable env : Env.

(** GetLockPeriodInEpoch returns the delegation lock period for the given chain *)
Definition GetLockPeriodInEpoch (chain : engine.ChainReader) (epoch : Z) : Z :=
  let lockPeriod := LockPeriodInEpoch env in
  if params.IsRedelegation (engine.Config chain) epoch then LockPeriodInEpoch env
  else if params.IsQuickUnlock (engine.Config chain) epoch then LockPeriodInEpochV2 env
  else lockPeriod.

(** only recalculate for non-staking epoch and targetShardID is not the
    same as engine *)
Definition needRecalculateStateShard
    (chain : engine.ChainReader) (epoch : Z) (targetShardID : Z) : bool :=
  if params.IsStaking (engine.Config chain) epoch then false
  else negb (targetShardID =? engine.ShardID chain).

Definition readShardState
    (chain : engine.ChainReader) (epoch : Z) (targetShardID : Z) : M shard.State :=
  if needRecalculateStateShard chain epoch targetShardID then
    mapErr (fun err => errors.Wrap err "compute shard state for epoch")
      (call (EvCompute epoch) (Compute env epoch chain))
  else
    mapErr (fun err => errors.Wrap err "read shard state for epoch")
      (call (EvReadShardState epoch) (engine.ReadShardState chain epoch)).

Definition readEpochCtxFromChain
    (chain : engine.ChainReader) (epoch : Z) (targetShardID : Z) : M epochCtx :=
  ss ← readShardState chain epoch targetShardID;
  shardComm ← lift (shard.FindCommitteeByID ss targetShardID);
  pubKeys ← lift (shard.BLSPublicKeys shardComm);
  let isStaking := params.IsStaking (engine.Config chain) epoch in
  qrVerifier ← lift (NewVerifier env shardComm epoch isStaking);
  mret {| qrVerifier := qrVerifier; pubKeys := pubKeys |}.

Definition newEpochCtxKeyFromHeader (header : block.Header) : epochCtxKey :=
  {| ecShardID := block.ShardID header;
     ecEpoch := Uint64 (block.Epoch header) |}.

(** [copy(keyBM[:], bitmap)] into a zeroed [64]byte. *)
Definition newVerifiedSigKey
    (blockHash : common.Hash) (sig : bls.SerializedSignature) (bitmap : list byte)
    : verifiedSigKey :=
  let keyBM :=
    take bitmapKeyBytes bitmap ++ replicate (bitmapKeyBytes - length bitmap) Byte.x00 in
  {| blockHash := blockHash; signature := sig; bitmap := keyBM |}.

Definition getCachedEpochCtx (header : block.Header) : M (option epochCtx) :=
  let ecKey := newEpochCtxKeyFromHeader header in
  modifyEngine (fun e =>
    let '(ec, c) := lru.Get ecKey (epochCtxCache e) in
    (match ec with
     | Some (Some ec) => Some ec
     | _ => None
     end,
     {| beacon := beacon e; epochCtxCache := c; verifiedSigCache := verifiedSigCache e |})).

Definition verifyHeaderSignature
    (chain : engine.ChainReader) (header : block.Header)
    (commitSig : bls.SerializedSignature) (commitBitmap : list byte) : M unit :=
  cached ← getCachedEpochCtx header;
  ec ← match cached with
       | Some ec => mret ec
       | None =>
           (* Epoch context not in cache, read from chain *)
           readEpochCtxFromChain chain (block.Epoch header) (block.ShardID header)
       end;
  let pubKeys := pubKeys ec in
  let qrVerifier := qrVerifier ec in
  decoded ← mapErr (fun err => errors.Wrap err "deserialize signature and bitmap")
              (call (EvDecodeSigBitmap commitSig commitBitmap)
                 (DecodeSigBitmap env commitSig commitBitmap pubKeys));
  let '(aggSig, mask) := decoded in
  (* Verify signature, mask against quorum.Verifier and publicKeys *)
  _ ← log EvIsQuorumAchievedByMask;
  if negb (quorum.IsQuorumAchievedByMask qrVerifier mask) then
    fail (errors.New "not enough signature collected")
  else
    let commitPayload :=
      ConstructCommitPayload env chain (block.Epoch header) (block.Hash header)
        (Uint64 (block.Number header)) (Uint64 (block.ViewID header)) in
    _ ← log (EvVerifyHash commitPayload);
    if negb (bls.VerifyHash aggSig (bls.AggregatePublic mask) commitPayload) then
      fail (errors.New "Unable to verify aggregated signature for block")
    else mret tt.

Definition verifiedSigCacheGet (key : verifiedSigKey) : M bool :=
  modifyEngine (fun e =>
    let '(v, c) := lru.Get key (verifiedSigCache e) in
    (match v with Some _ => true | None => false end,
     {| beacon := beacon e; epochCtxCache := epochCtxCache e; verifiedSigCache := c |})).

Definition verifiedSigCacheAdd (key : verifiedSigKey) : M unit :=
  modifyEngine (fun e =>
    (tt, {| beacon := beacon e; epochCtxCache := epochCtxCache e;
            verifiedSigCache := lru.Add key tt (verifiedSigCache e) |})).

Definition verifyHeaderSignatureCached
    (chain : engine.ChainReader) (header : block.Header)
    (commitSig : bls.SerializedSignature) (commitBitmap : list byte) : M unit :=
  let key := newVerifiedSigKey (block.Hash header) commitSig commitBitmap in
  ok ← verifiedSigCacheGet key;
  if ok : bool then mret tt
  else
    _ ← verifyHeaderSignature chain header commitSig commitBitmap;
    verifiedSigCacheAdd key.

(** VerifyHeaderSignature verifies the signature of the given header. *)
Definition VerifyHeaderSignature
    (chain : engine.ChainReader) (header : block.Header)
    (commitSig : bls.SerializedSignature) (commitBitmap : list byte) : M unit :=
  if Uint64 (block.Number (engine.CurrentHeader chain)) <=? 1 then mret tt
  else verifyHeaderSignatureCached chain header commitSig commitBitmap.

(** VerifySeal implements Engine; the header may be nil. *)
Definition VerifySeal (chain : engine.ChainReader) (header : option block.Header) : M unit :=
  if Uint64 (block.Number (engine.CurrentHeader chain)) <=? 1 then mret tt
  else
    match header with
    | None => fail (errors.New "[VerifySeal] nil block header")
    | Some header =>
        let parentHash := block.ParentHash header in
        let number := sub64 (Uint64 (block.Number header)) 1 in
        _ ← log (EvGetHeader parentHash number);
        match engine.GetHeader chain parentHash number with
        | None => fail (errors.New "[VerifySeal] no parent header found")
        | Some parentHeader =>
            let sig := block.LastCommitSignature header in
            let bitmap := block.LastCommitBitmap header in
            mapErr (fun err => errors.Wrap err "verify signature for parent")
              (verifyHeaderSignatureCached chain parentHeader sig bitmap)
        end
    end.

(** VerifyHeader checks whether a header conforms to the consensus rules
    of the bft engine. *)
Definition VerifyHeader
    (chain : engine.ChainReader) (header : block.Header) (seal : bool) : M unit :=
  let number := sub64 (Uint64 (block.Number header)) 1 in
  _ ← log (EvGetHeader (block.ParentHash header) number);
  match engine.GetHeader chain (block.ParentHash header) number with
  | None => fail errors.ErrUnknownAncestor
  | Some parentHeader =>
      if seal then VerifySeal chain (Some header) else mret tt
  end.

(** VerifyShardState implements Engine, checking the shardstate is valid
    at epoch transition *)
Definition VerifyShardState
    (bc beacon : engine.ChainReader) (header : block.Header) : M unit :=
  if negb (engine.ShardID bc =? block.ShardID header) then
    fail (errors.Errorf "[VerifyShardState] shardID not match %d %d"
            [engine.ShardID bc; block.ShardID header])
  else
    let headerShardStateBytes := block.ShardState header in
    if (length headerShardStateBytes =? 0)%nat then mret tt
    else
      shardState ← call (EvSuperCommitteeForNextEpoch true)
                     (SuperCommitteeForNextEpoch env bc beacon header true);
      let isStaking :=
        match shard.Epoch shardState with
        | Some epoch => params.IsStaking (engine.Config bc) epoch
        | None => false
        end in
      shardStateBytes ←
        mapErr (fun err => errors.Wrap err "[VerifyShardState] ShardState Encoding had error")
          (lift (EncodeWrapper env shardState isStaking));
      if negb (bool_decide (shardStateBytes = headerShardStateBytes)) then
        fail (errors.New "shard state header did not match as expected")
      else mret tt.
End Engine.

(** ** Sorting the slash groups *)

(** The comparator handed to sort.SliceStable in applySlashes. *)
Definition less (a b : keyStruct) : bool :=
  if shardID a <? shardID b then true
  else if height a <? height b then true
  else if viewID a <? viewID b then true
  else false.

Section Sort.
Context {A : Type} (lt : A -> A -> bool).

(** One round of the library's insertion sort: the new element [x] is
    swapped towards the front while it is less than its left neighbour.
    The sorted prefix is held reversed, its last element first. *)
Fixpoint insertBack (x : A) (revPrefix : list A) : list A :=
  match revPrefix with
  | [] => [x]
  | y :: rest => if lt x y then y :: insertBack x rest else x :: y :: rest
  end.

(** insertionSort(data, 0, n) of package sort. *)
Definition insertionSort (l : list A) : list A :=
  rev (fold_left (fun revPrefix x => insertBack x revPrefix) l []).
End Sort.

Section Finalizer.
Variable env : Env.

(** sort.SliceStable: a slice of at most 20 elements is insertion
    sorted. *)
Definition SliceStable (lt : keyStruct -> keyStruct -> bool) (l : list keyStruct)
    : list keyStruct :=
  if (length l <=? 20)%nat then insertionSort lt l else stableLarge env lt l.

(** IsCommitteeSelectionBlock checks if the given header is for the
    committee selection block which can only occur on beacon chain and if
    epoch > pre-staking epoch. *)
Definition IsCommitteeSelectionBlock
    (chain : engine.ChainReader) (header : block.Header) : bool :=
  let isBeaconChain := block.ShardID header =? BeaconChainShardID env in
  let inPreStakingEra := params.IsPreStaking (engine.Config chain) (block.Epoch header) in
  isBeaconChain && block.IsLastBlockInEpoch header && inPreStakingEra.

(** state.ValidatorWrapper(addr), its error replaced by the engine's. *)
Definition stateValidatorWrapper (addr : Address) : M staking.ValidatorWrapper :=
  s ← getDB;
  mapErr (fun _ => errors.New "[Finalize] failed to get validator from state to finalize")
    (lift (state.ValidatorWrapper addr s)).

(** The loop over [wrapper.Delegations]; [wrapper] is the validator's
    record in the state, mutated in place. *)
Fixpoint payoutDelegations
    (header : block.Header) (validator : Address) (lockPeriod : Z) (noEarlyUnlock : bool)
    (indices : list nat) (wrapper : staking.ValidatorWrapper) : M unit :=
  match indices with
  | [] => mret tt
  | i :: indices' =>
      match staking.Delegations wrapper !! i with
      | None => payoutDelegations header validator lockPeriod noEarlyUnlock indices' wrapper
      | Some delegation =>
          let '(delegation', totalWithdraw) :=
            RemoveUnlockedUndelegations env delegation (block.Epoch header)
              (staking.LastEpochInCommittee wrapper) lockPeriod noEarlyUnlock in
          let wrapper' :=
            {| staking.LastEpochInCommittee := staking.LastEpochInCommittee wrapper;
               staking.Delegations := <[i := delegation']> (staking.Delegations wrapper) |} in
          _ ← log (EvRemoveUnlockedUndelegations validator i (block.Epoch header)
                     (staking.LastEpochInCommittee wrapper) lockPeriod noEarlyUnlock);
          _ ← modifyDB (state.setValidatorWrapper validator wrapper');
          _ ← (if totalWithdraw =? 0 then mret tt
               else
                 _ ← log (EvAddBalance (staking.DelegatorAddress delegation') totalWithdraw);
                 modifyDB (state.AddBalance (staking.DelegatorAddress delegation') totalWithdraw));
          payoutDelegations header validator lockPeriod noEarlyUnlock indices' wrapper'
      end
  end.

(** Withdraw unlocked tokens to the delegators' accounts *)
Definition payoutUndelegations (chain : engine.ChainReader) (header : block.Header) : M unit :=
  validators ← mapErr (fun _ => errors.New "[Finalize] failed to read all validators")
                 (call EvReadValidatorList (engine.ReadValidatorList chain));
  (* Payout undelegated/unlocked tokens *)
  let lockPeriod := GetLockPeriodInEpoch env chain (block.Epoch header) in
  let noEarlyUnlock := params.IsNoEarlyUnlock (engine.Config chain) (block.Epoch header) in
  forM_ validators (fun validator =>
    wrapper ← stateValidatorWrapper validator;
    payoutDelegations header validator lockPeriod noEarlyUnlock
      (seq 0 (length (staking.Delegations wrapper))) wrapper).

Definition setLastEpochInCommittee (header : block.Header) : M unit :=
  match block.GetShardState header with
  | Err _ => fail (errors.New "[Finalize] failed to read shard state")
  | Ok newShardState =>
      forM_ (shard.StakedValidators newShardState) (fun addr =>
        wrapper ← stateValidatorWrapper addr;
        _ ← log (EvSetLastEpochInCommittee addr (shard.Epoch newShardState));
        modifyDB (state.setValidatorWrapper addr
          {| staking.LastEpochInCommittee := shard.Epoch newShardState;
             staking.Delegations := staking.Delegations wrapper |}))
  end.

(** The key of a record, as applySlashes builds it. *)
Definition thisKey (r : slash.Record_) : keyStruct :=
  {| height := slash.Height (slash.evidence r);
     viewID := slash.ViewID (slash.evidence r);
     shardID := slash.ShardID (slash.moment (slash.evidence r));
     epoch := Uint64 (slash.Epoch (slash.moment (slash.evidence r))) |}.

(** [groupedRecords[thisKey] = append(groupedRecords[thisKey], r)]; the
    map is held as an association list without repeated keys. *)
Fixpoint groupAppend (k : keyStruct) (r : slash.Record_)
    (g : list (keyStruct * slash.Records)) : list (keyStruct * slash.Records) :=
  match g with
  | [] => [(k, [r])]
  | (k', rs) :: g' =>
      if decide (k = k') then (k', rs ++ [r]) :: g' else (k', rs) :: groupAppend k r g'
  end.

(** First group slashes by same signed blocks *)
Definition groupRecords (doubleSigners : slash.Records) : list (keyStruct * slash.Records) :=
  fold_left (fun g r => groupAppend (thisKey r) r g) doubleSigners [].

Fixpoint groupLookup (k : keyStruct) (g : list (keyStruct * slash.Records)) : slash.Records :=
  match g with
  | [] => []
  | (k', rs) :: g' => if decide (k = k') then rs else groupLookup k g'
  end.

(** The keys collected by ranging over the map, then sorted: "Sort them
    so the slashes are always consistent". *)
Definition sortedKeys (doubleSigners : slash.Records) : list keyStruct :=
  SliceStable less (mapRange env (map fst (groupRecords doubleSigners))).

Definition applySlashes
    (chain : engine.ChainReader) (header : block.Header) (doubleSigners : slash.Records)
    : M unit :=
  let groupedRecords := groupRecords doubleSigners in
  _ ← log (EvApplySlashes doubleSigners);
  (* Do the slashing by groups in the sorted order *)
  forM_ (sortedKeys doubleSigners) (fun key =>
    let records := groupLookup key groupedRecords in
    superCommittee ←
      mapErr (fun _ => errors.New "could not read shard state")
        (call (EvReadShardState (toInt64 (epoch key)))
           (engine.ReadShardState chain (toInt64 (epoch key))));
    subComm ←
      mapErr (fun _ => errors.New "could not find shard committee")
        (lift (shard.FindCommitteeByID superCommittee (shardID key)));
    (* Apply the slashes, invariant: assume been verified as legit slash by this point *)
    votingPower ←
      mapErr (fun err =>
                errors.Wrap err "could not lookup cached voting power in slash application")
        (lift (lookupVotingPower env (toInt64 (epoch key)) subComm));
    let rate := Rate env votingPower records in
    _ ← mapErr (fun _ => errors.New "[Finalize] could not apply slash")
          (callDB (EvSlashApply records rate)
             (fun s => Apply env chain s records rate));
    mret tt).

Definition accumulateRewards
    (chain : engine.ChainReader) (header : block.Header) (sigsReady : bool) : M Z := fun w =>
  let '(r, s) :=
    AccumulateRewardsAndCountSigs env chain (statedb w) header (Beaconchain (eng w)) sigsReady in
  (r, {| eng := eng w; statedb := s;
         trace := trace w ++ [EvAccumulateRewardsAndCountSigs (isOk r)] |}).

(** Finalize implements Engine, accumulating the block rewards, setting
    the final state and assembling the block. *)
Definition Finalize
    (chain : engine.ChainReader) (header : block.Header)
    (txs receipts outcxs incxs stks : list N)
    (doubleSigners : slash.Records) (sigsReady : bool) (viewID : Z)
    : M (types.Block * Z) :=
  let isBeaconChain := block.ShardID header =? BeaconChainShardID env in
  let inStakingEra := params.IsStaking (engine.Config chain) (block.Epoch header) in
  (* Process Undelegations, set LastEpochInCommittee and set EPoS status *)
  _ ← (if IsCommitteeSelectionBlock chain header then
         _ ← payoutUndelegations chain header;
         _ ← setLastEpochInCommittee header;
         curShardState ← call (EvReadShardState (engine.CurrentBlockEpoch chain))
                           (engine.ReadShardState chain (engine.CurrentBlockEpoch chain));
         forM_ (shard.StakedValidators curShardState) (fun addr =>
           callDB (EvComputeAndMutateEPOSStatus addr)
             (fun s => ComputeAndMutateEPOSStatus env chain s addr))
       else mret tt);
  (* Accumulate block rewards and commit the final state root *)
  payout ← accumulateRewards chain header sigsReady;
  (* Apply slashes *)
  _ ← (if isBeaconChain && inStakingEra && (0 <? length doubleSigners)%nat then
         applySlashes chain header doubleSigners
       else if (0 <? length doubleSigners)%nat then
         fail (errors.New "slashes proposed in non-beacon chain or non-staking epoch")
       else mret tt);
  let header := block.SetViewID header (Uint64 viewID) in
  (* Finalize the state root *)
  let isS3 := params.IsS3 (engine.Config chain) (block.Epoch header) in
  _ ← log (EvIntermediateRoot isS3);
  s ← getDB;
  let header := block.SetRoot header (IntermediateRoot env s isS3) in
  mret ({| types.header := header; types.txs := txs; types.receipts := receipts;
           types.outcxs := outcxs; types.incxs := incxs; types.stks := stks |}, payout).
End Finalizer.

(** ** A concrete chain, used to run the engine *)

Module Run.
Definition committee0 : shard.Committee :=
  {| shard.ShardID := 0; shard.BLSPublicKeys := Ok [] |}.

Definition shardState (epoch : option Z) (staked : list Address) : shard.State :=
  {| shard.Epoch := epoch;
     shard.FindCommitteeByID := fun _ => Ok committee0;
     shard.StakedValidators := staked |}.

(** Staking is active from epoch 186, quick unlock from epoch 191 and
    redelegation from epoch 290. *)
Definition config : params.ChainConfig :=
  {| params.IsStaking := fun e => 186 <=? e;
     params.IsPreStaking := fun e => 185 <=? e;
     params.IsRedelegation := fun e => 290 <=? e;
     params.IsQuickUnlock := fun e => 191 <=? e;
     params.IsNoEarlyUnlock := fun e => 300 <=? e;
     params.IsS3 := fun e => 28 <=? e |}.

Definition mkHeader (hash : common.Hash) (number epoch shardID : Z)
    (blob : list byte) (bm : list byte) (next : result shard.State) : block.Header :=
  {| block.Hash := hash; block.ParentHash := []; block.Number := number;
     block.Epoch := epoch; block.ShardID := shardID; block.ViewID := number;
     block.Root := []; block.ShardState := blob;
     block.LastCommitSignature := [Byte.x01]; block.LastCommitBitmap := bm;
     block.IsLastBlockInEpoch := negb (length blob =? 0)%nat;
     block.GetShardState := next |}.

(** A chain on shard [shardID] whose tip has the given number and epoch. *)
Definition mkChain (shardID tipNumber tipEpoch : Z) : engine.ChainReader :=
  {| engine.ShardID := shardID;
     engine.Config := config;
     engine.CurrentHeader :=
       mkHeader [Byte.xaa] tipNumber tipEpoch shardID [] [] (Err (errors.External 0));
     engine.CurrentBlockEpoch := tipEpoch;
     engine.GetHeader := fun hash number =>
       Some (mkHeader [Byte.xbb] number tipEpoch shardID [] [] (Err (errors.External 0)));
     engine.ReadShardState := fun e => Ok (shardState (Some e) [1%N; 2%N]);
     engine.ReadValidatorList := Ok [1%N; 2%N] |}.

Definition acceptAll : bls.Sign := {| bls.VerifyHash := fun _ _ => true |}.

(** Modelled from the spec: DecodeSigBitmap is not part of the sources;
    "bitmaps longer than 64 bytes are rejected at decode time". *)
Definition decodeSigBitmap (sig : bls.SerializedSignature) (bm : list byte)
    (keys : list bls.PublicKey) : result (bls.Sign * bls.Mask) :=
  if (64 <? length bm)%nat then Err (errors.External 7)
  else Ok (acceptAll, {| bls.Bitmap := bm; bls.AggregatePublic := [] |}).

(** Every matured entry is withdrawn: an entry of epoch [e] is matured
    when [e + lockPeriod <= epoch]. *)
Definition removeUnlocked (d : staking.Delegation) (epoch : Z) (last : option Z)
    (lockPeriod : Z) (noEarlyUnlock : bool) : staking.Delegation * Z :=
  let matured := filter (fun u => u.2 + lockPeriod <= epoch) (staking.Undelegations d) in
  let kept := filter (fun u => ~ (u.2 + lockPeriod <= epoch)) (staking.Undelegations d) in
  ({| staking.DelegatorAddress := staking.DelegatorAddress d;
      staking.Amount := staking.Amount d;
      staking.Undelegations := kept |},
   foldr (fun u acc => u.1 + acc) 0 matured).

(** The collaborators, up to the iteration order of maps and the outcome
    of the reward accumulation. *)
Definition mkEnv (range : list keyStruct -> list keyStruct) (rewards : result Z) : Env :=
  {| BeaconChainShardID := 0;
     LockPeriodInEpoch := 7;
     LockPeriodInEpochV2 := 2;
     SuperCommitteeForNextEpoch := fun bc _ h _ =>
       Ok (shardState (Some (block.Epoch h + 1)) [1%N]);
     EncodeWrapper := fun ss isStaking => Ok [if isStaking then Byte.x01 else Byte.x00];
     Compute := fun e _ => Ok (shardState (Some e) []);
     NewVerifier := fun _ _ _ => Ok {| quorum.IsQuorumAchievedByMask := fun _ => true |};
     DecodeSigBitmap := decodeSigBitmap;
     ConstructCommitPayload := fun _ _ hash _ _ => hash;
     RemoveUnlockedUndelegations := removeUnlocked;
     ComputeAndMutateEPOSStatus := fun _ s _ => (Ok tt, s);
     AccumulateRewardsAndCountSigs := fun _ s _ _ _ => (rewards, s);
     lookupVotingPower := fun _ _ => Ok 1;
     Rate := fun vp records => vp;
     Apply := fun _ s _ _ =>
       (Ok {| slash.TotalSlashed := 0; slash.TotalBeneficiaryReward := 0 |}, s);
     IntermediateRoot := fun _ _ => [];
     mapRange := range;
     stableLarge := fun _ l => l |}.

Definition env0 : Env := mkEnv (fun ks => ks) (Ok 0).

Definition emptyDB : state.DB := {| state.validators := ∅; state.balances := ∅ |}.

Definition world0 (s : state.DB) : World :=
  {| eng := NewEngine; statedb := s; trace := [] |}.

(** Double sign evidence at (shard, height, view), epoch 200. *)
Definition evidenceAt (sh h v : Z) : slash.Record_ :=
  {| slash.evidence :=
       {| slash.moment := {| slash.Epoch := 200; slash.ShardID := sh |};
          slash.Height := h; slash.ViewID := v; slash.Offender := 1%N |};
     slash.Reporter := 2%N |}.

Definition keyAt (sh h v : Z) : keyStruct :=
  {| height := h; viewID := v; shardID := sh; epoch := 200 |}.
(** The last block of epoch 200 on the beacon chain; validator 1 is
    staked in the shard state of epoch 201 it carries. *)
Definition rolloverHeader : block.Header :=
  mkHeader [Byte.xcc] 101 200 0 [Byte.x01] [] (Ok (shardState (Some 201) [1%N])).

(** Validators 1 and 2, last elected in epochs 150 and 199; validator 1
    has a delegation of delegator 9 with 30 tokens undelegated in epoch 100
    and 5 in epoch 199. *)
Definition stakedDB : state.DB :=
  {| state.validators :=
       {[ 1%N := {| staking.LastEpochInCommittee := Some 150;
                    staking.Delegations :=
                      [{| staking.DelegatorAddress := 9%N; staking.Amount := 100;
                          staking.Undelegations := [(30, 100); (5, 199)] |}] |};
          2%N := {| staking.LastEpochInCommittee := Some 199;
                    staking.Delegations := [] |} ]};
     state.balances := ∅ |}.
(** A header of epoch 200 on shard [shardID] that is not the last block
    of its epoch. *)
Definition plainHeader (shardID : Z) : block.Header :=
  mkHeader [Byte.xdd] 101 200 shardID [] [] (Err (errors.External 0)).

(** The collaborators when the reward accumulation fails. *)
Definition envRewardsFail : Env := mkEnv (fun ks => ks) (Err (errors.External 3)).
(** A header of epoch 200 on the beacon chain whose commit is verified,
    and two bitmaps for it: 64 bytes, and the same with one more byte. *)
Definition signedHeader : block.Header := plainHeader 0.
Definition bitmap64 : list byte := replicate 64 Byte.xff.
Definition bitmap65 : list byte := bitmap64 ++ [Byte.x01].
End Run.

(** ** Reading a run *)

(** The groups handed to slash.Apply, in the order of the calls, each
    named by the key of its records. *)
Definition slashOrder (t : list Event) : list keyStruct :=
  flat_map (fun ev =>
    match ev with
    | EvSlashApply (r :: _) _ => [thisKey r]
    | _ => []
    end) t.

(** The order the specification asks for: shardID, then height, then
    viewID, each ascending. *)
Definition lexLess (a b : keyStruct) : bool :=
  (shardID a <? shardID b)
  || ((shardID a =? shardID b)
      && ((height a <? height b)
          || ((height a =? height b) && (viewID a <? viewID b)))).

(** What replaces the error of a failed call. *)
Definition wrapErr {A} (msg : string) (r : result A) : result A :=
  match r with
  | Ok a => Ok a
  | Err e => Err (errors.Wrap e msg)
  end.

(** ** Relations between the world before and after a computation *)

(** [m] takes every world to a world related to it by [R]. *)
Definition stable (R : World -> World -> Prop) {A} (m : M A) : Prop :=
  forall w, R w (m w).2.

(** The trace grows by events that satisfy [P]. *)
Definition extends (P : Event -> Prop) (w w' : World) : Prop :=
  exists t, trace w' = trace w ++ t /\ Forall P t.

Definition emits {A} (P : Event -> Prop) (m : M A) : Prop := stable (extends P) m.

(** ** What the rollover steps of Finalize may do *)

(** The two states give every validator the same LastEpochInCommittee. *)
Definition sameLastEpochs (s s' : state.DB) : Prop :=
  forall a,
    staking.LastEpochInCommittee <$> state.validators s' !! a =
    staking.LastEpochInCommittee <$> state.validators s !! a.

(** The calls of the payout step, seen from the state [s] it started in:
    RemoveUnlockedUndelegations is given the header's epoch, the
    LastEpochInCommittee the validator has in [s], the lock period of
    GetLockPeriodInEpoch and the NoEarlyUnlock flag of the epoch. *)
Definition payoutEvent (env : Env) (chain : engine.ChainReader) (header : block.Header)
    (s : state.DB) (ev : Event) : Prop :=
  match ev with
  | EvReadValidatorList | EvAddBalance _ _ => True
  | EvRemoveUnlockedUndelegations v i e last lp ne =>
      staking.LastEpochInCommittee <$> state.validators s !! v = Some last /\
      e = block.Epoch header /\
      lp = GetLockPeriodInEpoch env chain (block.Epoch header) /\
      ne = params.IsNoEarlyUnlock (engine.Config chain) (block.Epoch header)
  | _ => False
  end.

Definition payoutRel (env : Env) (chain : engine.ChainReader) (header : block.Header)
    (w w' : World) : Prop :=
  sameLastEpochs (statedb w) (statedb w') /\
  extends (payoutEvent env chain header (statedb w)) w w'.

Definition setLastEvent (ev : Event) : Prop :=
  match ev with
  | EvSetLastEpochInCommittee _ _ => True
  | _ => False
  end.

(** Neither a payout nor an update of LastEpochInCommittee. *)
Definition afterRollover (ev : Event) : Prop :=
  match ev with
  | EvRemoveUnlockedUndelegations _ _ _ _ _ _ | EvSetLastEpochInCommittee _ _ => False
  | _ => True
  end.

(** Validator [a] is in the state with LastEpochInCommittee [ep]. *)
Definition hasLastEpoch (ep : option Z) (a : Address) (s : state.DB) : Prop :=
  exists wrapper,
    state.validators s !! a = Some wrapper /\
    staking.LastEpochInCommittee wrapper = ep.

(** ** What Finalize may do about slashes *)

(** The error of Finalize on slashes outside the beacon chain or the
    staking era (SlashesInWrongChain). *)
Definition slashesInWrongChain : error :=
  errors.New "slashes proposed in non-beacon chain or non-staking epoch".

(** The calls of applySlashes are made on [doubleSigners], and only when
    [inContext] holds and the list is not empty. *)
Definition slashingOnlyIn (doubleSigners : slash.Records) (inContext : bool) (ev : Event)
    : Prop :=
  match ev with
  | EvApplySlashes ds => ds = doubleSigners /\ inContext = true /\ doubleSigners <> []
  | EvSlashApply _ _ => inContext = true /\ doubleSigners <> []
  | _ => True
  end.

(** The calls of the phases of Finalize that come before the rewards. *)
Definition beforeRewards (ev : Event) : Prop :=
  match ev with
  | EvApplySlashes _ | EvSlashApply _ _ | EvAccumulateRewardsAndCountSigs _ => False
  | _ => True
  end.

(** The calls applySlashes makes for a group. *)
Definition groupEvent (ev : Event) : Prop :=
  match ev with
  | EvReadShardState _ | EvSlashApply _ _ => True
  | _ => False
  end.

(** ** What verification may do to the memo of verified signatures *)

Definition memo (w : World) : lru.Cache verifiedSigKey unit := verifiedSigCache (eng w).

(** The memo of verified signatures is left as it was. *)
Definition sameMemo (w w' : World) : Prop := memo w' = memo w.

(** ** What a computation may do to the engine *)

(** The engines of the two worlds are related by [P]. *)
Definition onEngine (P : engineImpl -> engineImpl -> Prop) (w w' : World) : Prop :=
  P (eng w) (eng w').

(** The two engines hold the same epoch contexts. *)
Definition sameEpochCtxEntries (e e' : engineImpl) : Prop :=
  forall k, lru.find k (lru.items (epochCtxCache e')) = lru.find k (lru.items (epochCtxCache e)).

(** ** The payout of undelegations, as a function of the state *)

Section PaidOut.
Variables (env : Env) (chain : engine.ChainReader) (header : block.Header).

(** What RemoveUnlockedUndelegations returns for a delegation of a
    validator last elected in [last], at the header's epoch. *)
Definition removeUnlockedAt (last : option Z) (d : staking.Delegation)
    : staking.Delegation * Z :=
  RemoveUnlockedUndelegations env d (block.Epoch header) last
    (GetLockPeriodInEpoch env chain (block.Epoch header))
    (params.IsNoEarlyUnlock (engine.Config chain) (block.Epoch header)).

(** The wrapper with every delegation released. *)
Definition paidWrapper (wrapper : staking.ValidatorWrapper) : staking.ValidatorWrapper :=
  {| staking.LastEpochInCommittee := staking.LastEpochInCommittee wrapper;
     staking.Delegations :=
       map (fun d => (removeUnlockedAt (staking.LastEpochInCommittee wrapper) d).1)
         (staking.Delegations wrapper) |}.

(** The non-zero totals released, each with the delegator it goes to, in
    the order of the delegations. *)
Definition withdrawals (last : option Z) (ds : list staking.Delegation)
    : list (Address * Z) :=
  flat_map (fun d =>
    let r := removeUnlockedAt last d in
    if r.2 =? 0 then [] else [(staking.DelegatorAddress r.1, r.2)]) ds.

Definition creditAll (credits : list (Address * Z)) (s : state.DB) : state.DB :=
  foldl (fun s c => state.AddBalance c.1 c.2 s) s credits.

(** The state after the payout for the validators [vs], in order; it
    stops at the first validator that is not in the state. *)
Fixpoint paidOut (vs : list Address) (s : state.DB) : state.DB :=
  match vs with
  | [] => s
  | v :: vs' =>
      match state.validators s !! v with
      | None => s
      | Some wrapper =>
          paidOut vs'
            (creditAll
               (withdrawals (staking.LastEpochInCommittee wrapper)
                  (staking.Delegations wrapper))
               (state.setValidatorWrapper v (paidWrapper wrapper) s))
      end
  end.
End PaidOut.

(** The balance of an account; an account the state does not hold has
    balance 0. *)
Definition balance (a : Address) (s : state.DB) : Z := default 0 (state.balances s !! a).

(** The total of the credits in [credits] that go to account [a]. *)
Definition withdrawnTo (a : Address) (credits : list (Address * Z)) : Z :=
  foldr (fun c acc => if decide (c.1 = a) then c.2 + acc else acc) 0 credits.

(** What the payout for the validators [vs] owes to account [a], read off
    the state [s] the payout starts in. *)
Definition owed (env : Env) (chain : engine.ChainReader) (header : block.Header)
    (s : state.DB) (a : Address) (vs : list Address) : Z :=
  foldr (fun v acc =>
    match state.validators s !! v with
    | Some wrapper =>
        withdrawnTo a (withdrawals env chain header
                         (staking.LastEpochInCommittee wrapper)
                         (staking.Delegations wrapper)) + acc
    | None => acc
    end) 0 vs.

(** The error of Finalize on a validator that is not in the state. *)
Definition validatorLookupFailure : error :=
  errors.New "[Finalize] failed to get validator from state to finalize".

(** The record lists handed to slash.Apply, in the order of the calls. *)
Definition appliedGroups (t : list Event) : list slash.Records :=
  flat_map (fun ev =>
    match ev with
    | EvSlashApply records _ => [records]
    | _ => []
    end) t.

(** The calls of the committee selection phase of Finalize. *)
Definition rolloverEvent (ev : Event) : Prop :=
  match ev with
  | EvReadValidatorList | EvRemoveUnlockedUndelegations _ _ _ _ _ _ | EvAddBalance _ _
  | EvSetLastEpochInCommittee _ _ | EvComputeAndMutateEPOSStatus _ => True
  | _ => False
  end.

(** Whatever [I] says of the state before the run, it says of the state
    after it. *)
Definition keeps (I : state.DB -> Prop) (w w' : World) : Prop :=
  I (statedb w) -> I (statedb w').

(** * Properties *)

(** ** Shard state resolution *)

Lemma needRecalculateStateShard_spec chain epoch targetShardID :
  needRecalculateStateShard chain epoch targetShardID = true <->
  params.IsStaking (engine.Config chain) epoch = false /\
  targetShardID <> engine.ShardID chain.
Proof.
  unfold needRecalculateStateShard.
  destruct (params.IsStaking _ _); [intuition discriminate|].
  rewrite negb_true_iff, Z.eqb_neq. tauto.
Qed.

Lemma mapErr_call {A} (f : error -> error) ev (r : result A) w :
  mapErr f (call ev r) w =
  (match r with Ok a => Ok a | Err e => Err (f e) end, logEvent ev w).
Proof. unfold mapErr, call. by destruct r. Qed.

Lemma logEvent_inj ev ev' w : logEvent ev w = logEvent ev' w -> ev = ev'.
Proof.
  intros H. apply (f_equal trace) in H. simpl in H.
  apply app_inv_head in H. by injection H.
Qed.

(** C6: readShardState calls the committee selection function exactly
    when the epoch is not a staking epoch and the target shard is not the
    chain's own shard; in every other case it reads the stored shard state
    from the chain.  The call made is the one event added to the trace. *)
Theorem readShardState_recompute_iff env chain epoch targetShardID w :
  let crossShardPreStaking :=
    params.IsStaking (engine.Config chain) epoch = false /\
    targetShardID <> engine.ShardID chain in
  let r := readShardState env chain epoch targetShardID w in
  (crossShardPreStaking <->
     r = (wrapErr "compute shard state for epoch" (Compute env epoch chain),
          logEvent (EvCompute epoch) w)) /\
  (~ crossShardPreStaking <->
     r = (wrapErr "read shard state for epoch" (engine.ReadShardState chain epoch),
          logEvent (EvReadShardState epoch) w)).
Proof.
  intros cond r. subst cond r. unfold readShardState.
  rewrite <- needRecalculateStateShard_spec.
  destruct (needRecalculateStateShard chain epoch targetShardID);
    rewrite mapErr_call; fold (@wrapErr shard.State).
  - split; split.
    + by intros _.
    + by intros _.
    + intros H. by destruct H.
    + intros H. apply (f_equal snd) in H. simpl in H. apply logEvent_inj in H. discriminate.
  - split; split.
    + intros H. discriminate.
    + intros H. apply (f_equal snd) in H. simpl in H. apply logEvent_inj in H. discriminate.
    + by intros _.
    + intros _. discriminate.
Qed.

(** ** The genesis shortcut *)

(** C9: when the tip of the chain is block 0 or block 1, VerifySeal and
    VerifyHeaderSignature return success for every header (a nil header
    included), whatever the collaborators are, and leave the world as it
    was: no call is made and no cache is touched. *)
Theorem VerifySeal_genesis_shortcut env chain w :
  0 <= block.Number (engine.CurrentHeader chain) <= 1 ->
  (forall header, VerifySeal env chain header w = (Ok tt, w)) /\
  (forall header commitSig commitBitmap,
     VerifyHeaderSignature env chain header commitSig commitBitmap w = (Ok tt, w)).
Proof.
  intros Htip.
  assert (Hu : (Uint64 (block.Number (engine.CurrentHeader chain)) <=? 1) = true).
  { apply Z.leb_le. unfold Uint64. rewrite Z.abs_eq by lia.
    rewrite Z.mod_small; lia. }
  split; intros; unfold VerifySeal, VerifyHeaderSignature; by rewrite Hu.
Qed.

Lemma VerifySeal_genesis_shortcut_witness :
  VerifySeal Run.env0 (Run.mkChain 0 1 0) None (Run.world0 Run.emptyDB)
  = (Ok tt, Run.world0 Run.emptyDB).
Proof.
  apply (VerifySeal_genesis_shortcut Run.env0 (Run.mkChain 0 1 0)). simpl. lia.
Defined.

(** ** Shard state verification *)

(** C10: VerifyShardState fails when the shard of the local chain is not
    the header's; succeeds at once on an empty shard state blob; and
    otherwise succeeds exactly when the next epoch's super committee is
    computed, encoded (with the staking flag set iff its epoch is a staking
    epoch) and the encoding equals the blob, the error on unequal bytes
    being the mismatch error. *)
Theorem VerifyShardState_spec env bc beacon header w :
  let verdict := (VerifyShardState env bc beacon header w).1 in
  let isStaking (ss : shard.State) :=
    match shard.Epoch ss with
    | Some epoch => params.IsStaking (engine.Config bc) epoch
    | None => false
    end in
  (engine.ShardID bc <> block.ShardID header ->
     verdict = Err (errors.Errorf "[VerifyShardState] shardID not match %d %d"
                      [engine.ShardID bc; block.ShardID header])) /\
  (engine.ShardID bc = block.ShardID header ->
     block.ShardState header = [] -> verdict = Ok tt) /\
  (engine.ShardID bc = block.ShardID header ->
     block.ShardState header <> [] ->
     (verdict = Ok tt <->
        exists ss, SuperCommitteeForNextEpoch env bc beacon header true = Ok ss /\
                   EncodeWrapper env ss (isStaking ss) = Ok (block.ShardState header)) /\
     (forall ss bytes,
        SuperCommitteeForNextEpoch env bc beacon header true = Ok ss ->
        EncodeWrapper env ss (isStaking ss) = Ok bytes ->
        bytes <> block.ShardState header ->
        verdict = Err (errors.New "shard state header did not match as expected"))).
Proof.
  intros verdict isStaking. subst verdict. unfold VerifyShardState.
  split; [|split].
  - intros Hne. apply Z.eqb_neq in Hne. by rewrite Hne.
  - intros Heq Hempty. apply Z.eqb_eq in Heq. by rewrite Heq, Hempty.
  - intros Heq Hblob. apply Z.eqb_eq in Heq. rewrite Heq. simpl.
    destruct (block.ShardState header) as [|b blob] eqn:Hb; [done|]. simpl.
    unfold mbind, M_bind, call, mapErr, lift, fail, mret, M_ret.
    destruct (SuperCommitteeForNextEpoch env bc beacon header true) as [ss|e] eqn:Hss0; simpl.
    + fold (isStaking ss).
      destruct (EncodeWrapper env ss (isStaking ss)) as [bytes|e] eqn:Henc0; simpl.
      * destruct (bool_decide (bytes = b :: blob)) eqn:Hd; simpl.
        -- apply bool_decide_eq_true in Hd. subst bytes. split.
           ++ split; [intros _; by exists ss|done].
           ++ intros ss' bytes' [= <-] Henc Hne. congruence.
        -- apply bool_decide_eq_false in Hd. split.
           ++ split; [done|]. intros (ss' & [= <-] & Henc). congruence.
           ++ done.
      * split.
        -- split; [done|]. intros (ss' & [= <-] & Henc). congruence.
        -- intros ss' bytes' [= <-] Henc. congruence.
    + split.
      * split; [done|]. intros (ss' & Hss & _). discriminate.
      * intros ss' bytes' Hss. discriminate.
Qed.

Lemma VerifyShardState_spec_witness :
  (VerifyShardState Run.env0 (Run.mkChain 0 100 200) (Run.mkChain 0 100 200)
     (Run.mkHeader [] 101 200 0 [Byte.x01] [] (Err (errors.External 0)))
     (Run.world0 Run.emptyDB)).1 = Ok tt.
Proof.
  destruct (VerifyShardState_spec Run.env0 (Run.mkChain 0 100 200) (Run.mkChain 0 100 200)
              (Run.mkHeader [] 101 200 0 [Byte.x01] [] (Err (errors.External 0)))
              (Run.world0 Run.emptyDB)) as (_ & _ & H).
  destruct H as [H _]; [reflexivity | discriminate |].
  apply H. eexists. split; reflexivity.
Defined.

(** ** Composing runs *)

Section Stable.
Context (R : World -> World -> Prop).
Hypothesis R_refl : forall w, R w w.
Hypothesis R_trans : forall a b c, R a b -> R b c -> R a c.

Lemma stable_ret {A} (a : A) : stable R (mret a).
Proof. intros w. apply R_refl. Qed.

Lemma stable_fail {A} e : stable R (@fail A e).
Proof. intros w. apply R_refl. Qed.

Lemma stable_lift {A} (r : result A) : stable R (lift r).
Proof. intros w. apply R_refl. Qed.

Lemma stable_getDB : stable R getDB.
Proof. intros w. apply R_refl. Qed.

Lemma stable_bind {A B} (m : M A) (f : A -> M B) :
  stable R m -> (forall a, stable R (f a)) -> stable R (m ≫= f).
Proof.
  intros Hm Hf w. unfold mbind, M_bind. specialize (Hm w).
  destruct (m w) as [[a|e] w']; simpl in *; [|done].
  eapply R_trans; [exact Hm|apply Hf].
Qed.

Lemma stable_mapErr {A} g (m : M A) : stable R m -> stable R (mapErr g m).
Proof.
  intros Hm w. unfold mapErr. specialize (Hm w).
  by destruct (m w) as [[a|e] w'].
Qed.

Lemma stable_forM {A} (l : list A) (f : A -> M unit) :
  (forall a, stable R (f a)) -> stable R (forM_ l f).
Proof.
  intros Hf. induction l as [|a l IH]; simpl.
  - apply stable_ret.
  - apply stable_bind; [apply Hf|intros _; apply IH].
Qed.
End Stable.

Lemma extends_refl P w : extends P w w.
Proof. exists []. by rewrite app_nil_r. Qed.

Lemma extends_trans P a b c : extends P a b -> extends P b c -> extends P a c.
Proof.
  intros (t1 & E1 & F1) (t2 & E2 & F2). exists (t1 ++ t2).
  rewrite E2, E1, app_assoc. split; [done|]. by apply Forall_app.
Qed.

Lemma extends_impl (P Q : Event -> Prop) w w' :
  (forall ev, P ev -> Q ev) -> extends P w w' -> extends Q w w'.
Proof. intros H (t & E & F). exists t. split; [done|]. eapply Forall_impl; eauto. Qed.

Section Emits.
Context (P : Event -> Prop).

Lemma emits_ret {A} (a : A) : emits P (mret a).
Proof. apply stable_ret, extends_refl. Qed.

Lemma emits_fail {A} e : emits P (@fail A e).
Proof. apply stable_fail, extends_refl. Qed.

Lemma emits_lift {A} (r : result A) : emits P (lift r).
Proof. apply stable_lift, extends_refl. Qed.

Lemma emits_getDB : emits P getDB.
Proof. apply stable_getDB, extends_refl. Qed.

Lemma emits_bind {A B} (m : M A) (f : A -> M B) :
  emits P m -> (forall a, emits P (f a)) -> emits P (m ≫= f).
Proof. apply stable_bind, extends_trans. Qed.

Lemma emits_mapErr {A} g (m : M A) : emits P m -> emits P (mapErr g m).
Proof. apply stable_mapErr. Qed.

Lemma emits_forM {A} (l : list A) (f : A -> M unit) :
  (forall a, emits P (f a)) -> emits P (forM_ l f).
Proof. apply stable_forM; [apply extends_refl|apply extends_trans]. Qed.

Lemma emits_log ev : P ev -> emits P (log ev).
Proof. intros H w. exists [ev]. split; [done|]. by constructor. Qed.

Lemma emits_call {A} ev (r : result A) : P ev -> emits P (call ev r).
Proof. intros H w. exists [ev]. split; [done|]. by constructor. Qed.

Lemma emits_callDB {A} ev (f : state.DB -> result A * state.DB) :
  P ev -> emits P (callDB ev f).
Proof.
  intros H w. exists [ev]. unfold callDB.
  destruct (f (statedb w)). split; [done|]. by constructor.
Qed.

Lemma emits_modifyDB f : emits P (modifyDB f).
Proof. intros w. exists []. simpl. by rewrite app_nil_r. Qed.

Lemma emits_modifyEngine {A} (f : engineImpl -> A * engineImpl) :
  emits P (modifyEngine f).
Proof.
  intros w. unfold modifyEngine. destruct (f (eng w)).
  exists []. simpl. by rewrite app_nil_r.
Qed.
End Emits.

Create HintDb emits.
#[global] Hint Resolve emits_ret emits_fail emits_lift emits_getDB emits_mapErr
  emits_log emits_call emits_callDB emits_modifyDB emits_modifyEngine : emits.

(** Break a computation down to its primitive steps. *)
Ltac emits_steps :=
  repeat first
    [ apply emits_bind; [|intros ?]
    | apply emits_forM; intros ?
    | apply emits_mapErr
    | apply emits_ret | apply emits_fail | apply emits_lift | apply emits_getDB
    | apply emits_modifyDB | apply emits_modifyEngine
    | apply emits_log | apply emits_call | apply emits_callDB
    | match goal with
      | |- emits _ (if ?b then _ else _) => destruct b
      | |- emits _ (match ?x with _ => _ end) => destruct x
      | |- emits _ (let '(_, _) := ?x in _) => destruct x
      end ].

(** ** The rollover steps of Finalize *)

Lemma bind_run {A B} (m : M A) (f : A -> M B) w :
  (m ≫= f) w =
  match m w with
  | (Ok a, w') => f a w'
  | (Err e, w') => (Err e, w')
  end.
Proof. reflexivity. Qed.

Lemma bind_assoc {A B C} (m : M A) (f : A -> M B) (g : B -> M C) w :
  ((m ≫= f) ≫= g) w = (m ≫= (fun a => f a ≫= g)) w.
Proof.
  rewrite !bind_run. destruct (m w) as [[a|e] w']; [|done]. by rewrite bind_run.
Qed.

Lemma sameLastEpochs_refl s : sameLastEpochs s s.
Proof. by intros a. Qed.

Lemma sameLastEpochs_trans s1 s2 s3 :
  sameLastEpochs s1 s2 -> sameLastEpochs s2 s3 -> sameLastEpochs s1 s3.
Proof. intros H1 H2 a. by rewrite H2, H1. Qed.

Lemma payoutEvent_same env chain header s s' ev :
  sameLastEpochs s s' -> payoutEvent env chain header s' ev -> payoutEvent env chain header s ev.
Proof. intros H. destruct ev; simpl; try done. by rewrite H. Qed.

Lemma payoutRel_refl env chain header w : payoutRel env chain header w w.
Proof. split; [apply sameLastEpochs_refl|apply extends_refl]. Qed.

Lemma payoutRel_trans env chain header a b c :
  payoutRel env chain header a b -> payoutRel env chain header b c ->
  payoutRel env chain header a c.
Proof.
  intros [S1 E1] [S2 E2]. split; [by eapply sameLastEpochs_trans|].
  eapply extends_trans; [exact E1|].
  eapply extends_impl; [|exact E2]. intros ev. by apply payoutEvent_same.
Qed.

Section Payout.
Variables (env : Env) (chain : engine.ChainReader) (header : block.Header).

Let lockPeriod := GetLockPeriodInEpoch env chain (block.Epoch header).
Let noEarlyUnlock := params.IsNoEarlyUnlock (engine.Config chain) (block.Epoch header).

Lemma payoutDelegations_rel validator indices : forall wrapper w,
  staking.LastEpochInCommittee <$> state.validators (statedb w) !! validator
    = Some (staking.LastEpochInCommittee wrapper) ->
  payoutRel env chain header w
    (payoutDelegations env header validator lockPeriod noEarlyUnlock indices wrapper w).2.
Proof.
  induction indices as [|i indices IH]; intros wrapper w Hw; simpl.
  - apply payoutRel_refl.
  - destruct (staking.Delegations wrapper !! i) as [delegation|]; [|by apply IH].
    destruct (RemoveUnlockedUndelegations env delegation (block.Epoch header)
                (staking.LastEpochInCommittee wrapper) lockPeriod noEarlyUnlock)
      as [delegation' totalWithdraw].
    set (wrapper' := {| staking.LastEpochInCommittee := staking.LastEpochInCommittee wrapper;
                        staking.Delegations := <[i:=delegation']> (staking.Delegations wrapper) |}).
    rewrite bind_run. simpl. rewrite bind_run. simpl. rewrite bind_run.
    match goal with
    | |- context [match ?m ?w1 with _ => _ end] =>
        assert (Hstep : (m w1).1 = Ok tt /\ payoutRel env chain header w (m w1).2 /\
                  staking.LastEpochInCommittee <$> state.validators (statedb (m w1).2) !! validator
                    = Some (staking.LastEpochInCommittee wrapper'));
        [|destruct (m w1) as [[[]|e] w2]; simpl in Hstep;
          destruct Hstep as (Hok & Hrel & Hw2); [|discriminate];
          eapply payoutRel_trans; [exact Hrel|by apply IH]]
    end.
    assert (Hins : forall a,
      staking.LastEpochInCommittee <$> <[validator:=wrapper']> (state.validators (statedb w)) !! a
      = staking.LastEpochInCommittee <$> state.validators (statedb w) !! a).
    { intros a. destruct (decide (validator = a)) as [<-|Hne].
      - by rewrite lookup_insert_eq, Hw.
      - by rewrite lookup_insert_ne. }
    assert (Hev : payoutEvent env chain header (statedb w)
              (EvRemoveUnlockedUndelegations validator i (block.Epoch header)
                 (staking.LastEpochInCommittee wrapper) lockPeriod noEarlyUnlock)).
    { unfold payoutEvent. split; [exact Hw|done]. }
    destruct (totalWithdraw =? 0); simpl.
    + split; [done|]. split; [|by rewrite lookup_insert_eq].
      split; [exact Hins|]. eexists [_]. split; [done|]. by constructor.
    + split; [done|]. split; [|by rewrite lookup_insert_eq].
      split; [exact Hins|]. eexists [_; _]. split; [by rewrite <- app_assoc|].
      constructor; [exact Hev|]. by constructor.
Qed.

Lemma payoutUndelegations_rel w :
  payoutRel env chain header w (payoutUndelegations env chain header w).2.
Proof.
  revert w. change (stable (payoutRel env chain header) (payoutUndelegations env chain header)).
  assert (Hr := payoutRel_refl env chain header).
  assert (Ht := payoutRel_trans env chain header).
  unfold payoutUndelegations.
  apply stable_bind; [done| |intros validators].
  - apply stable_mapErr. intros w. split; [apply sameLastEpochs_refl|].
    exists [EvReadValidatorList]. split; [done|]. by constructor.
  - apply stable_forM; [done..|]. intros validator w.
    unfold stateValidatorWrapper. rewrite bind_assoc, bind_run. simpl.
    unfold mapErr, lift, state.ValidatorWrapper.
    destruct (state.validators (statedb w) !! validator) as [wrapper|] eqn:Hv; simpl.
    + apply payoutDelegations_rel. by rewrite Hv.
    + apply payoutRel_refl.
Qed.
End Payout.

Lemma setLastEpochInCommittee_body ep addr w :
  (wrapper ← stateValidatorWrapper addr;
   _ ← log (EvSetLastEpochInCommittee addr ep);
   modifyDB (state.setValidatorWrapper addr
     {| staking.LastEpochInCommittee := ep;
        staking.Delegations := staking.Delegations wrapper |})) w =
  match state.validators (statedb w) !! addr with
  | Some wrapper =>
      (Ok tt,
       {| eng := eng w;
          statedb := state.setValidatorWrapper addr
            {| staking.LastEpochInCommittee := ep;
               staking.Delegations := staking.Delegations wrapper |} (statedb w);
          trace := trace w ++ [EvSetLastEpochInCommittee addr ep] |})
  | None =>
      (Err (errors.New "[Finalize] failed to get validator from state to finalize"), w)
  end.
Proof.
  unfold stateValidatorWrapper. rewrite bind_assoc, bind_run. simpl.
  unfold mapErr, lift, state.ValidatorWrapper.
  by destruct (state.validators (statedb w) !! addr).
Qed.

Lemma setLastEpochInCommittee_loop ep l : forall w,
  let r := forM_ l (fun addr =>
             wrapper ← stateValidatorWrapper addr;
             _ ← log (EvSetLastEpochInCommittee addr ep);
             modifyDB (state.setValidatorWrapper addr
               {| staking.LastEpochInCommittee := ep;
                  staking.Delegations := staking.Delegations wrapper |})) w in
  (forall a, hasLastEpoch ep a (statedb w) -> hasLastEpoch ep a (statedb r.2)) /\
  (r.1 = Ok tt -> forall a, a ∈ l -> hasLastEpoch ep a (statedb r.2)) /\
  extends setLastEvent w r.2.
Proof.
  induction l as [|a l IH]; intros w; simpl.
  - split; [done|]. split; [|apply extends_refl].
    intros _ a Ha. by apply elem_of_nil in Ha.
  - rewrite bind_run, setLastEpochInCommittee_body.
    destruct (state.validators (statedb w) !! a) as [wrapper|] eqn:Hv; simpl.
    + match goal with |- context [forM_ l ?f ?w1] =>
        destruct (IH w1) as (P1 & P2 & P3); set (w' := w1) in * end.
      assert (Hkeep : forall b, hasLastEpoch ep b (statedb w) -> hasLastEpoch ep b (statedb w')).
      { intros b (wr & Hb & Hep). unfold hasLastEpoch. simpl.
        destruct (decide (a = b)) as [<-|Hne].
        - rewrite lookup_insert_eq. by eexists.
        - rewrite lookup_insert_ne by done. by exists wr. }
      assert (Hnew : hasLastEpoch ep a (statedb w')).
      { unfold hasLastEpoch. simpl. rewrite lookup_insert_eq. by eexists. }
      split; [intros b Hb; by apply P1, Hkeep|].
      split.
      * intros Hok b [->|Hb]%elem_of_cons; [by apply P1|by apply P2].
      * eapply extends_trans; [|exact P3].
        eexists [_]. split; [done|]. by constructor.
    + split; [done|]. split; [done|apply extends_refl].
Qed.

Lemma setLastEpochInCommittee_spec header w :
  let r := setLastEpochInCommittee header w in
  (r.1 = Ok tt ->
   exists newShardState,
     block.GetShardState header = Ok newShardState /\
     forall addr, addr ∈ shard.StakedValidators newShardState ->
       hasLastEpoch (shard.Epoch newShardState) addr (statedb r.2)) /\
  extends setLastEvent w r.2.
Proof.
  unfold setLastEpochInCommittee.
  destruct (block.GetShardState header) as [ss|e]; simpl.
  - destruct (setLastEpochInCommittee_loop (shard.Epoch ss) (shard.StakedValidators ss) w)
      as (_ & P2 & P3).
    split; [|exact P3]. intros Hok. exists ss. split; [done|]. by apply P2.
  - split; [done|apply extends_refl].
Qed.

Lemma emits_accumulateRewards P env chain header sigsReady :
  (forall ok, P (EvAccumulateRewardsAndCountSigs ok)) ->
  emits P (accumulateRewards env chain header sigsReady).
Proof.
  intros H w. unfold accumulateRewards.
  destruct (AccumulateRewardsAndCountSigs env chain (statedb w) header
              (Beaconchain (eng w)) sigsReady) as [r s].
  eexists [_]. split; [done|]. by constructor.
Qed.

Lemma emits_applySlashes P env chain header doubleSigners :
  P (EvApplySlashes doubleSigners) ->
  (forall e, P (EvReadShardState e)) ->
  (forall records rate, P (EvSlashApply records rate)) ->
  emits P (applySlashes env chain header doubleSigners).
Proof. intros H1 H2 H3. unfold applySlashes. emits_steps; auto. Qed.

(** ** The state after the rollover steps *)

Section Keeps.
Context (I : state.DB -> Prop).

Lemma keeps_refl w : keeps I w w.
Proof. by intros H. Qed.

Lemma keeps_trans a b c : keeps I a b -> keeps I b c -> keeps I a c.
Proof. unfold keeps. auto. Qed.

Lemma keeps_log ev : stable (keeps I) (log ev).
Proof. by intros w H. Qed.

Lemma keeps_call {A} ev (r : result A) : stable (keeps I) (call ev r).
Proof. by intros w H. Qed.

Lemma keeps_callDB {A} ev (f : state.DB -> result A * state.DB) :
  (forall s, I s -> I (f s).2) -> stable (keeps I) (callDB ev f).
Proof.
  intros Hf w H. unfold callDB. specialize (Hf _ H).
  by destruct (f (statedb w)) as [r s].
Qed.

Lemma keeps_accumulateRewards env chain header sigsReady :
  (forall s beacon,
     I s -> I (AccumulateRewardsAndCountSigs env chain s header beacon sigsReady).2) ->
  stable (keeps I) (accumulateRewards env chain header sigsReady).
Proof.
  intros Hf w H. unfold accumulateRewards. specialize (Hf _ (Beaconchain (eng w)) H).
  by destruct (AccumulateRewardsAndCountSigs env chain (statedb w) header
                 (Beaconchain (eng w)) sigsReady) as [r s].
Qed.

Lemma keeps_applySlashes env chain header doubleSigners :
  (forall s records rate, I s -> I (Apply env chain s records rate).2) ->
  stable (keeps I) (applySlashes env chain header doubleSigners).
Proof.
  intros Hf. unfold applySlashes.
  apply stable_bind; [apply keeps_trans|apply keeps_log|intros _].
  apply stable_forM; [apply keeps_refl|apply keeps_trans|intros key].
  repeat first
    [ apply stable_bind; [apply keeps_trans| |intros ?]
    | apply stable_mapErr | apply stable_lift, keeps_refl
    | apply stable_ret, keeps_refl | apply keeps_call
    | apply keeps_callDB; intros s; apply Hf ].
Qed.
End Keeps.

(** C8: on a committee selection block, once the setLastEpochInCommittee
    step of Finalize has returned without error, every staked validator of
    the header's new shard state has that shard state's epoch as its
    LastEpochInCommittee; and the payout step runs before it: the trace of
    Finalize is the calls of the payout, which hand
    RemoveUnlockedUndelegations the LastEpochInCommittee of the state
    Finalize started in, then the updates, then calls that are neither.
    The state of the step is the state of Finalize: when the step fails
    Finalize returns its error in the state the step leaves, and when it
    succeeds Finalize goes on from that state, so that whatever holds of
    it and is kept by the calls that follow on the state (the EPoS
    status, the reward accumulation and slash.Apply) holds of the state
    Finalize leaves. *)
Theorem Finalize_setLastEpochInCommittee
    env chain header txs receipts outcxs incxs stks doubleSigners sigsReady viewID w :
  IsCommitteeSelectionBlock env chain header = true ->
  let p := payoutUndelegations env chain header w in
  let s := setLastEpochInCommittee header p.2 in
  let f := Finalize env chain header txs receipts outcxs incxs stks
             doubleSigners sigsReady viewID w in
  (s.1 = Ok tt ->
   exists newShardState,
     block.GetShardState header = Ok newShardState /\
     forall addr, addr ∈ shard.StakedValidators newShardState ->
       exists wrapper,
         state.validators (statedb s.2) !! addr = Some wrapper /\
         staking.LastEpochInCommittee wrapper = shard.Epoch newShardState) /\
  (exists t1,
    trace p.2 = trace w ++ t1 /\
    Forall (payoutEvent env chain header (statedb w)) t1 /\
    (p.1 = Ok tt ->
     exists t2 t3,
       trace s.2 = trace p.2 ++ t2 /\
       Forall setLastEvent t2 /\
       trace f.2 = trace w ++ t1 ++ t2 ++ t3 /\
       Forall afterRollover t3)) /\
  (p.1 = Ok tt ->
   (forall e, s.1 = Err e -> f = (Err e, s.2)) /\
   (s.1 = Ok tt ->
    forall I : state.DB -> Prop,
      (forall s0 addr, I s0 -> I (ComputeAndMutateEPOSStatus env chain s0 addr).2) ->
      (forall s0 beacon,
         I s0 -> I (AccumulateRewardsAndCountSigs env chain s0 header beacon sigsReady).2) ->
      (forall s0 records rate, I s0 -> I (Apply env chain s0 records rate).2) ->
      I (statedb s.2) -> I (statedb f.2))).
Proof.
  intros Hsel p s f.
  destruct (setLastEpochInCommittee_spec header p.2) as [Hset (t2 & Et2 & Ft2)].
  fold s in Hset, Et2.
  split; [exact Hset|].
  destruct (payoutUndelegations_rel env chain header w) as [_ (t1 & Et1 & Ft1)].
  fold p in Et1.
  subst f. unfold Finalize. rewrite Hsel.
  rewrite bind_assoc, bind_run. fold p.
  destruct p as [[[]|e] w1] eqn:Ep; simpl in *.
  2:{ split; [|discriminate]. exists t1. split; [exact Et1|]. split; [exact Ft1|discriminate]. }
  rewrite bind_assoc, bind_run. fold s.
  destruct s as [[[]|e] w2] eqn:Es; simpl in *.
  - match goal with |- context [trace (?m w2).2] => set (rest := m) end.
    assert (Hrest : emits afterRollover rest).
    { subst rest. emits_steps; try done. by apply emits_accumulateRewards. }
    destruct (Hrest w2) as (t3 & Et3 & Ft3).
    split.
    + exists t1. split; [exact Et1|]. split; [exact Ft1|]. intros _. exists t2, t3.
      split; [done|]. split; [done|]. split; [|done].
      by rewrite Et3, Et2, Et1, <- !app_assoc.
    + intros _. split; [discriminate|]. intros _ I HE HR HA.
      assert (Hkeep : stable (keeps I) rest); [|exact (Hkeep w2)].
      subst rest.
      apply stable_bind; [apply keeps_trans| |intros _].
      * apply stable_bind; [apply keeps_trans|apply keeps_call|intros css].
        apply stable_forM; [apply keeps_refl|apply keeps_trans|intros addr].
        apply keeps_callDB. intros s0. apply HE.
      * apply stable_bind; [apply keeps_trans| |intros payout].
        { by apply keeps_accumulateRewards. }
        apply stable_bind; [apply keeps_trans| |intros _].
        -- repeat match goal with |- stable _ (if ?c then _ else _) => destruct c end;
             [by apply keeps_applySlashes|apply stable_fail, keeps_refl
             |apply stable_ret, keeps_refl].
        -- apply stable_bind; [apply keeps_trans|apply keeps_log|intros _].
           apply stable_bind; [apply keeps_trans|apply stable_getDB, keeps_refl|intros ?].
           apply stable_ret, keeps_refl.
  - split.
    + exists t1. split; [exact Et1|]. split; [exact Ft1|]. intros _. exists t2, [].
      split; [done|]. split; [done|]. split; [|done].
      by rewrite Et2, Et1, app_nil_r, <- app_assoc.
    + intros _. split; [by intros e' [= <-]|discriminate].
Qed.

Lemma Finalize_setLastEpochInCommittee_witness :
  hasLastEpoch (Some 201) 1%N
    (statedb (Finalize Run.env0 (Run.mkChain 0 100 200) Run.rolloverHeader
                [] [] [] [] [] [] true 7 (Run.world0 Run.stakedDB)).2).
Proof.
  destruct (Finalize_setLastEpochInCommittee Run.env0 (Run.mkChain 0 100 200)
              Run.rolloverHeader [] [] [] [] [] [] true 7 (Run.world0 Run.stakedDB))
    as (Hstep & _ & Hstate); [reflexivity|].
  destruct Hstep as (ss & Hss & Hall); [reflexivity|].
  injection Hss as <-.
  destruct Hstate as [_ Hkeep]; [reflexivity|].
  apply (Hkeep eq_refl (hasLastEpoch (Some 201) 1%N)); try (intros; assumption).
  apply Hall. simpl. apply list_elem_of_here.
Defined.

(** ** The lock period of undelegations *)

(** C3 (as amended): for every epoch GetLockPeriodInEpoch is the V2 lock
    period when QuickUnlock holds at the epoch and Redelegation does not,
    and the default lock period otherwise; and it is the lock period that
    payoutUndelegations hands to every RemoveUnlockedUndelegations call,
    at the header's epoch. *)
Theorem GetLockPeriodInEpoch_spec env chain :
  (forall epoch,
     GetLockPeriodInEpoch env chain epoch =
     if params.IsQuickUnlock (engine.Config chain) epoch
        && negb (params.IsRedelegation (engine.Config chain) epoch)
     then LockPeriodInEpochV2 env else LockPeriodInEpoch env) /\
  (forall header w,
     exists t,
       trace (payoutUndelegations env chain header w).2 = trace w ++ t /\
       forall v i e last lp ne,
         EvRemoveUnlockedUndelegations v i e last lp ne ∈ t ->
         lp = GetLockPeriodInEpoch env chain (block.Epoch header)).
Proof.
  split.
  - intros epoch. unfold GetLockPeriodInEpoch.
    by destruct (params.IsRedelegation _ _), (params.IsQuickUnlock _ _).
  - intros header w.
    destruct (payoutUndelegations_rel env chain header w) as [_ (t & Et & Ft)].
    exists t. split; [exact Et|].
    intros v i e last lp ne Hin.
    rewrite Forall_forall in Ft. apply Ft in Hin. simpl in Hin. tauto.
Qed.

(** C3, as stated, fails at epoch 300 of the concrete chain: QuickUnlock
    holds there (and so does Redelegation), the lock period is the default
    7 and not the V2 period 2. *)
Lemma GetLockPeriodInEpoch_quick_unlock_counterexample :
  params.IsQuickUnlock (engine.Config (Run.mkChain 0 100 300)) 300 = true /\
  GetLockPeriodInEpoch Run.env0 (Run.mkChain 0 100 300) 300 = LockPeriodInEpoch Run.env0 /\
  GetLockPeriodInEpoch Run.env0 (Run.mkChain 0 100 300) 300 <> LockPeriodInEpochV2 Run.env0.
Proof. split; [reflexivity|]. split; [reflexivity|]. discriminate. Qed.

(** ** The order of the slash groups *)

Lemma less_spec a b :
  less a b = true <->
  shardID a < shardID b \/ height a < height b \/ viewID a < viewID b.
Proof.
  unfold less.
  destruct (Z.ltb_spec (shardID a) (shardID b)); [intuition|].
  destruct (Z.ltb_spec (height a) (height b)); [intuition|].
  destruct (Z.ltb_spec (viewID a) (viewID b)); [intuition|].
  split; [discriminate|lia].
Qed.

(** Two keys compare both ways as soon as one has the smaller shardID and
    the other the smaller height; the insertion sort then swaps them,
    whichever comes first. *)
Lemma less_two_way a b :
  shardID a < shardID b -> height b < height a ->
  less a b = true /\ less b a = true.
Proof. intros H1 H2. split; apply less_spec; auto. Qed.

Lemma insertionSort_two_way a b :
  less a b = true -> less b a = true ->
  insertionSort less [a; b] = [b; a] /\ insertionSort less [b; a] = [a; b].
Proof. intros H1 H2. unfold insertionSort. simpl. by rewrite H1, H2. Qed.

(** C1: on the evidence of the specification's scenario, with the map
    ranged over in the order its keys were added, the groups are applied in
    the order shard 1 at height 9, shard 0 at height 10, shard 1 at height
    10: the comparator holds both ways between the first two keys, where the
    order by shardID, height and viewID holds one way only. *)
Theorem applySlashes_order_of_scenario :
  let doubleSigners := [Run.evidenceAt 1 10 2; Run.evidenceAt 0 10 2; Run.evidenceAt 1 9 2] in
  let run := applySlashes Run.env0 (Run.mkChain 0 100 200) Run.rolloverHeader
               doubleSigners (Run.world0 Run.emptyDB) in
  run.1 = Ok tt /\
  slashOrder (trace run.2) = [Run.keyAt 1 9 2; Run.keyAt 0 10 2; Run.keyAt 1 10 2] /\
  less (Run.keyAt 1 9 2) (Run.keyAt 0 10 2) = true /\
  less (Run.keyAt 0 10 2) (Run.keyAt 1 9 2) = true /\
  lexLess (Run.keyAt 1 9 2) (Run.keyAt 0 10 2) = false /\
  lexLess (Run.keyAt 0 10 2) (Run.keyAt 1 9 2) = true.
Proof. repeat split; reflexivity. Qed.

(** C2: two runs on the same three records, fed in opposite orders, apply
    the groups in different orders; and so do two runs on the same input
    whose map is ranged over in opposite orders. *)
Theorem applySlashes_order_of_permutations :
  let doubleSigners := [Run.evidenceAt 1 10 2; Run.evidenceAt 0 10 2; Run.evidenceAt 1 9 2] in
  let order env ds :=
    slashOrder (trace (applySlashes env (Run.mkChain 0 100 200) Run.rolloverHeader
                         ds (Run.world0 Run.emptyDB)).2) in
  rev doubleSigners ≡ₚ doubleSigners /\
  order Run.env0 doubleSigners = [Run.keyAt 1 9 2; Run.keyAt 0 10 2; Run.keyAt 1 10 2] /\
  order Run.env0 (rev doubleSigners) = [Run.keyAt 0 10 2; Run.keyAt 1 9 2; Run.keyAt 1 10 2] /\
  order (Run.mkEnv (@rev keyStruct) (Ok 0)) doubleSigners
    = [Run.keyAt 0 10 2; Run.keyAt 1 9 2; Run.keyAt 1 10 2].
Proof.
  intros doubleSigners order. split; [symmetry; apply Permutation_rev|].
  repeat split; reflexivity.
Qed.

(** ** The slashing phase of Finalize *)

Lemma nonempty_length {A} (l : list A) : (0 <? length l)%nat = true <-> l <> [].
Proof. destruct l; simpl; split; try done. Qed.

Lemma applySlashes_trace env chain header doubleSigners w :
  exists t,
    trace (applySlashes env chain header doubleSigners w).2
      = trace w ++ EvApplySlashes doubleSigners :: t /\
    Forall groupEvent t.
Proof.
  unfold applySlashes. rewrite bind_run. simpl.
  match goal with |- context [forM_ ?l ?f ?w1] =>
    assert (H : emits groupEvent (forM_ l f)) by (emits_steps; done);
    destruct (H w1) as (t & Et & Ft) end.
  exists t. split; [|done]. rewrite Et. simpl. by rewrite <- app_assoc.
Qed.

Lemma emits_payoutUndelegations P env chain header :
  (forall s ev, payoutEvent env chain header s ev -> P ev) ->
  emits P (payoutUndelegations env chain header).
Proof.
  intros H w. destruct (payoutUndelegations_rel env chain header w) as [_ He].
  eapply extends_impl; [|exact He]. apply H.
Qed.

Lemma emits_setLastEpochInCommittee P header :
  (forall ev, setLastEvent ev -> P ev) ->
  emits P (setLastEpochInCommittee header).
Proof.
  intros H w. destruct (setLastEpochInCommittee_spec header w) as [_ He].
  eapply extends_impl; [|exact He]. apply H.
Qed.

(** C7 (as amended): Finalize calls applySlashes only on a beacon chain
    header of a staking epoch with a non-empty list of double signers; once
    the phases before it have returned without error (the reward
    accumulation is the last of them) it calls applySlashes exactly then,
    and fails with the SlashesInWrongChain error when the list is non-empty
    outside that context; and in every case a non-empty list outside that
    context makes Finalize fail and return no block. *)
Theorem Finalize_slashing
    env chain header txs receipts outcxs incxs stks doubleSigners sigsReady viewID w :
  let f := Finalize env chain header txs receipts outcxs incxs stks
             doubleSigners sigsReady viewID w in
  let inContext :=
    (block.ShardID header =? BeaconChainShardID env)
    && params.IsStaking (engine.Config chain) (block.Epoch header) in
  exists t,
    trace f.2 = trace w ++ t /\
    Forall (slashingOnlyIn doubleSigners inContext) t /\
    (EvAccumulateRewardsAndCountSigs true ∈ t ->
       (inContext = true -> doubleSigners <> [] -> EvApplySlashes doubleSigners ∈ t) /\
       (inContext = false -> doubleSigners <> [] -> f.1 = Err slashesInWrongChain)) /\
    (inContext = false -> doubleSigners <> [] -> exists e, f.1 = Err e).
Proof.
  intros f inContext. subst f. unfold Finalize. fold inContext.
  rewrite bind_run.
  match goal with |- context [match ?m w with _ => _ end] =>
    assert (H1 : emits beforeRewards m) by
      (destruct (IsCommitteeSelectionBlock env chain header); [|apply emits_ret];
       apply emits_bind; [apply emits_payoutUndelegations; by intros ? []|intros _];
       apply emits_bind; [apply emits_setLastEpochInCommittee; by intros []|intros _];
       emits_steps; done);
    destruct (H1 w) as (t1 & Et1 & Ft1); clear H1;
    destruct (m w) as [[[]|e1] w1] end; simpl in Et1.
  2:{ exists t1. split; [done|]. split; [|split].
      - eapply Forall_impl; [exact Ft1|]. intros [] ?; simpl in *; done.
      - intros Hin. rewrite Forall_forall in Ft1. by apply Ft1 in Hin.
      - intros _ _. by eexists. }
  rewrite bind_run. unfold accumulateRewards.
  destruct (AccumulateRewardsAndCountSigs env chain (statedb w1) header
              (Beaconchain (eng w1)) sigsReady) as [[payout|e2] s2]; simpl.
  2:{ exists (t1 ++ [EvAccumulateRewardsAndCountSigs false]).
      split; [by rewrite Et1, <- app_assoc|]. split; [|split].
      - apply Forall_app. split; [|by repeat constructor].
        eapply Forall_impl; [exact Ft1|]. intros [] ?; simpl in *; done.
      - intros [Hin|Hin%list_elem_of_singleton]%elem_of_app; [|discriminate].
        rewrite Forall_forall in Ft1. by apply Ft1 in Hin.
      - intros _ _. by eexists. }
  assert (Ft1' : Forall (slashingOnlyIn doubleSigners inContext) t1).
  { eapply Forall_impl; [exact Ft1|]. intros [] ?; simpl in *; done. }
  assert (Hno1 : forall ev, ev ∈ t1 -> beforeRewards ev).
  { by apply Forall_forall. }
  rewrite bind_run.
  destruct (inContext && (0 <? length doubleSigners)%nat) eqn:Hc.
  - apply andb_true_iff in Hc as [Hctx Hne%nonempty_length].
    match goal with |- context [applySlashes env chain header doubleSigners ?w2] =>
      destruct (applySlashes_trace env chain header doubleSigners w2) as (t3 & Et3 & Ft3);
      destruct (applySlashes env chain header doubleSigners w2) as [[[]|e3] w3] end;
      simpl in Et3.
    + exists (t1 ++ EvAccumulateRewardsAndCountSigs true
                :: EvApplySlashes doubleSigners
                :: t3 ++ [EvIntermediateRoot
                            (params.IsS3 (engine.Config chain) (block.Epoch header))]).
      split.
      { simpl. rewrite Et3, Et1. by rewrite <- !app_assoc. }
      split; [|split].
      * apply Forall_app. split; [done|]. constructor; [done|]. constructor; [done|].
        apply Forall_app. split; [|by repeat constructor].
        eapply Forall_impl; [exact Ft3|]. intros [] ?; simpl in *; done.
      * intros _. split; [|congruence]. intros _ _.
        apply elem_of_app. right. apply elem_of_cons. right. apply list_elem_of_here.
      * congruence.
    + exists (t1 ++ EvAccumulateRewardsAndCountSigs true
                :: EvApplySlashes doubleSigners :: t3).
      split.
      { simpl. rewrite Et3, Et1. by rewrite <- !app_assoc. }
      split; [|split].
      * apply Forall_app. split; [done|]. constructor; [done|]. constructor; [done|].
        eapply Forall_impl; [exact Ft3|]. intros [] ?; simpl in *; done.
      * intros _. split; [|congruence]. intros _ _.
        apply elem_of_app. right. apply elem_of_cons. right. apply list_elem_of_here.
      * congruence.
  - destruct (0 <? length doubleSigners)%nat eqn:Hlen.
    + assert (Hctx : inContext = false) by (by destruct inContext).
      exists (t1 ++ [EvAccumulateRewardsAndCountSigs true]).
      split; [simpl; by rewrite Et1, <- app_assoc|]. split; [|split].
      * apply Forall_app. split; [done|]. by repeat constructor.
      * intros _. split; [congruence|done].
      * intros _ _. by eexists.
    + assert (Hnil : doubleSigners = []) by (by destruct doubleSigners).
      exists (t1 ++ [EvAccumulateRewardsAndCountSigs true;
                     EvIntermediateRoot
                       (params.IsS3 (engine.Config chain) (block.Epoch header))]).
      split; [simpl; by rewrite Et1, <- !app_assoc|]. split; [|split].
      * apply Forall_app. split; [done|]. by repeat constructor.
      * intros _. split; intros _ Hne; by destruct Hne.
      * intros _ Hne. by destruct Hne.
Qed.

Lemma Finalize_slashing_witness :
  (Finalize Run.env0 (Run.mkChain 1 100 200) (Run.plainHeader 1) [] [] [] [] []
     [Run.evidenceAt 1 10 2] true 7 (Run.world0 Run.emptyDB)).1
  = Err slashesInWrongChain.
Proof.
  destruct (Finalize_slashing Run.env0 (Run.mkChain 1 100 200) (Run.plainHeader 1)
              [] [] [] [] [] [Run.evidenceAt 1 10 2] true 7 (Run.world0 Run.emptyDB))
    as (t & Et & _ & H & _).
  vm_compute in Et. subst t.
  apply H; [apply list_elem_of_here|reflexivity|discriminate].
Defined.

(** C7, as stated, fails when the reward accumulation fails: on a beacon
    chain header of a staking epoch with one double signer Finalize makes
    the one call of the reward accumulation and returns its error, no slash
    is applied; and on a header of shard 1 the error returned is again that
    of the rewards, not SlashesInWrongChain. *)
Lemma Finalize_slashing_counterexample :
  let finalize shardID :=
    Finalize Run.envRewardsFail (Run.mkChain shardID 100 200) (Run.plainHeader shardID)
      [] [] [] [] [] [Run.evidenceAt shardID 10 2] true 7 (Run.world0 Run.emptyDB) in
  (block.ShardID (Run.plainHeader 0) =? BeaconChainShardID Run.envRewardsFail)
    && params.IsStaking (engine.Config (Run.mkChain 0 100 200))
         (block.Epoch (Run.plainHeader 0)) = true /\
  (finalize 0).1 = Err (errors.External 3) /\
  trace (finalize 0).2 = [EvAccumulateRewardsAndCountSigs false] /\
  (finalize 1).1 = Err (errors.External 3) /\
  (finalize 1).1 <> Err slashesInWrongChain.
Proof. repeat split; try reflexivity. discriminate. Qed.

(** ** The LRU cache *)

Section LruFacts.
Context {K V : Type} `{EqDecision K}.
Implicit Types (k : K) (v : V) (l : list (K * V)) (c : lru.Cache K V).

Lemma lru_find_remove_ne k k' l : k <> k' -> lru.find k' (lru.remove k l) = lru.find k' l.
Proof.
  intros Hne. induction l as [|[k0 v0] l IH]; simpl; [done|].
  destruct (decide (k = k0)) as [<-|Hk].
  - rewrite IH. by destruct (decide (k' = k)) as [->|].
  - simpl. by rewrite IH.
Qed.

Lemma lru_find_removelast k l v :
  lru.find k (removelast l) = Some v -> lru.find k l = Some v.
Proof.
  induction l as [|[k0 v0] l IH]; simpl; [done|].
  destruct l as [|p l]; [done|].
  simpl in *. destruct (decide (k = k0)); [done|]. apply IH.
Qed.

Lemma lru_Get_found k c : (lru.Get k c).1 = lru.find k (lru.items c).
Proof. unfold lru.Get. by destruct (lru.find k (lru.items c)). Qed.

Lemma lru_Get_miss k c : lru.find k (lru.items c) = None -> (lru.Get k c).2 = c.
Proof. unfold lru.Get. by intros ->. Qed.

Lemma lru_Get_find k k' c :
  lru.find k' (lru.items (lru.Get k c).2) = lru.find k' (lru.items c).
Proof.
  unfold lru.Get. destruct (lru.find k (lru.items c)) as [v|] eqn:Hk; simpl; [|done].
  destruct (decide (k' = k)) as [->|Hne]; [done|].
  by apply lru_find_remove_ne.
Qed.

Lemma lru_Get_Contains k k' c : lru.Contains k' (lru.Get k c).2 = lru.Contains k' c.
Proof. unfold lru.Contains. by rewrite lru_Get_find. Qed.

Lemma lru_Get_size k c : lru.size (lru.Get k c).2 = lru.size c.
Proof. unfold lru.Get. by destruct (lru.find k (lru.items c)). Qed.

Lemma lru_Add_Contains k v c : lru.Contains k (lru.Add k v c) = true.
Proof.
  unfold lru.Contains, lru.Add.
  destruct (lru.find k (lru.items c)) eqn:Hk; simpl.
  - by rewrite decide_True.
  - destruct (Pos.to_nat (lru.size c) <? S (length (lru.items c)))%nat eqn:Hlt.
    + destruct (lru.items c) as [|p l] eqn:Hl.
      * apply Nat.ltb_lt in Hlt. simpl in Hlt. lia.
      * simpl. by rewrite decide_True.
    + simpl. by rewrite decide_True.
Qed.

Lemma lru_Add_Contains_inv k k' v c :
  lru.Contains k' (lru.Add k v c) = true -> k' = k \/ lru.Contains k' c = true.
Proof.
  destruct (decide (k' = k)) as [->|Hne]; [by left|]. intros Hc. right. revert Hc.
  unfold lru.Contains, lru.Add.
  destruct (lru.find k (lru.items c)) eqn:Hk; cbn [lru.items].
  - cbn [lru.find]. rewrite decide_False by done. by rewrite lru_find_remove_ne.
  - set (l := (k, v) :: lru.items c).
    assert (Hl : forall v', lru.find k' l = Some v' -> lru.find k' (lru.items c) = Some v').
    { intros v'. subst l. cbn [lru.find]. by rewrite decide_False. }
    destruct (Pos.to_nat (lru.size c) <? length l)%nat.
    + destruct (lru.find k' (removelast l)) as [v'|] eqn:Hf; [|discriminate].
      apply lru_find_removelast, Hl in Hf. by rewrite Hf.
    + destruct (lru.find k' l) as [v'|] eqn:Hf; [|discriminate].
      by rewrite (Hl v' eq_refl).
Qed.

Lemma lru_Add_size k v c : lru.size (lru.Add k v c) = lru.size c.
Proof. unfold lru.Add. by destruct (lru.find k (lru.items c)). Qed.
End LruFacts.

(** ** The memo of verified signatures *)

Lemma world_eta w :
  {| eng := {| beacon := beacon (eng w); epochCtxCache := epochCtxCache (eng w);
               verifiedSigCache := verifiedSigCache (eng w) |};
     statedb := statedb w; trace := trace w |} = w.
Proof. by destruct w as [[] ? ?]. Qed.

Lemma sameMemo_refl w : sameMemo w w.
Proof. done. Qed.

Lemma sameMemo_trans a b c : sameMemo a b -> sameMemo b c -> sameMemo a c.
Proof. unfold sameMemo. congruence. Qed.

Lemma verifyHeaderSignature_sameMemo env chain header commitSig commitBitmap :
  stable sameMemo (verifyHeaderSignature env chain header commitSig commitBitmap).
Proof.
  pose proof sameMemo_refl as Hr. pose proof sameMemo_trans as Ht.
  assert (Hlog : forall ev, stable sameMemo (log ev)) by done.
  assert (Hcall : forall A ev (r : result A), stable sameMemo (call ev r)) by done.
  unfold verifyHeaderSignature.
  apply stable_bind; [done| |intros cached].
  { intros w. unfold getCachedEpochCtx, modifyEngine.
    by destruct (lru.Get _ _). }
  apply stable_bind; [done| |intros ec].
  { destruct cached; [by apply stable_ret|].
    unfold readEpochCtxFromChain, readShardState.
    repeat first
      [ apply stable_bind; [done| |intros ?]
      | apply stable_mapErr | apply stable_lift | apply stable_ret
      | apply Hcall | done
      | match goal with |- stable _ (if ?b then _ else _) => destruct b end ]. }
  repeat first
    [ apply stable_bind; [done| |intros ?]
    | apply stable_mapErr | apply stable_lift | apply stable_ret | apply stable_fail
    | apply Hcall | apply Hlog | done
    | match goal with
      | |- stable _ (if ?b then _ else _) => destruct b
      | |- stable _ (let '(_, _) := ?x in _) => destruct x
      end ].
Qed.

Lemma verifiedSigCacheGet_run key w :
  verifiedSigCacheGet key w =
  (Ok (lru.Contains key (memo w)),
   {| eng := {| beacon := beacon (eng w); epochCtxCache := epochCtxCache (eng w);
                verifiedSigCache := (lru.Get key (memo w)).2 |};
      statedb := statedb w; trace := trace w |}).
Proof.
  unfold verifiedSigCacheGet, modifyEngine, memo, lru.Contains, lru.Get.
  by destruct (lru.find key (lru.items (verifiedSigCache (eng w)))).
Qed.

Lemma lru_Contains_false {K V} `{EqDecision K} (k : K) (c : lru.Cache K V) :
  lru.Contains k c = false -> lru.find k (lru.items c) = None.
Proof. unfold lru.Contains. by destruct (lru.find k (lru.items c)). Qed.

Lemma verifyHeaderSignatureCached_hit env chain header commitSig commitBitmap w :
  let key := newVerifiedSigKey (block.Hash header) commitSig commitBitmap in
  lru.Contains key (memo w) = true ->
  verifyHeaderSignatureCached env chain header commitSig commitBitmap w =
  (Ok tt,
   {| eng := {| beacon := beacon (eng w); epochCtxCache := epochCtxCache (eng w);
                verifiedSigCache := (lru.Get key (memo w)).2 |};
      statedb := statedb w; trace := trace w |}).
Proof.
  intros key Hhit. unfold verifyHeaderSignatureCached. fold key.
  by rewrite bind_run, verifiedSigCacheGet_run, Hhit.
Qed.

Lemma verifyHeaderSignatureCached_miss env chain header commitSig commitBitmap w :
  let key := newVerifiedSigKey (block.Hash header) commitSig commitBitmap in
  lru.Contains key (memo w) = false ->
  verifyHeaderSignatureCached env chain header commitSig commitBitmap w =
  match verifyHeaderSignature env chain header commitSig commitBitmap w with
  | (Ok _, w') => verifiedSigCacheAdd key w'
  | (Err e, w') => (Err e, w')
  end.
Proof.
  intros key Hmiss. unfold verifyHeaderSignatureCached. fold key.
  rewrite bind_run, verifiedSigCacheGet_run, Hmiss.
  rewrite lru_Get_miss by by apply lru_Contains_false.
  unfold memo. by rewrite world_eta, bind_run.
Qed.

(** C4 (as amended): when the key of the triple, built from the header
    hash, the signature and the bitmap cut or zero padded to 64 bytes, is
    not in the memo, verifyHeaderSignatureCached returns the verdict of
    verifyHeaderSignature on the triple; when the key is in the memo it
    returns success without a call.  A key enters the memo only as the key
    of a triple whose verification has just succeeded; a failed
    verification leaves the memo as it was, and the next identical call
    runs the verification again. *)
Theorem verifyHeaderSignatureCached_spec env chain header commitSig commitBitmap w :
  let key := newVerifiedSigKey (block.Hash header) commitSig commitBitmap in
  let cached := verifyHeaderSignatureCached env chain header commitSig commitBitmap in
  let fresh := verifyHeaderSignature env chain header commitSig commitBitmap in
  (lru.Contains key (memo w) = false ->
     (cached w).1 = (fresh w).1 /\
     ((fresh w).1 = Ok tt -> memo (cached w).2 = lru.Add key tt (memo w)) /\
     (forall e, (fresh w).1 = Err e ->
        (cached w).2 = (fresh w).2 /\
        memo (cached w).2 = memo w /\
        (cached (cached w).2).1 = (fresh (cached w).2).1)) /\
  (lru.Contains key (memo w) = true ->
     (cached w).1 = Ok tt /\
     trace (cached w).2 = trace w /\
     forall k, lru.Contains k (memo (cached w).2) = lru.Contains k (memo w)) /\
  (forall k, lru.Contains k (memo (cached w).2) = true ->
     lru.Contains k (memo w) = true \/ (k = key /\ (fresh w).1 = Ok tt)).
Proof.
  intros key cached fresh. subst cached fresh.
  pose proof (verifyHeaderSignature_sameMemo env chain header commitSig commitBitmap w)
    as Hsame. unfold sameMemo in Hsame.
  assert (Hmiss : lru.Contains key (memo w) = false ->
    verifyHeaderSignatureCached env chain header commitSig commitBitmap w =
    match verifyHeaderSignature env chain header commitSig commitBitmap w with
    | (Ok _, w') => verifiedSigCacheAdd key w'
    | (Err e, w') => (Err e, w')
    end) by apply verifyHeaderSignatureCached_miss.
  split; [|split].
  - intros Hc. rewrite (Hmiss Hc).
    destruct (verifyHeaderSignature env chain header commitSig commitBitmap w)
      as [[[]|e] w'] eqn:Hv; simpl in *.
    + split; [done|]. split; [|done]. intros _. unfold memo in *. simpl. by rewrite Hsame.
    + split; [done|]. split; [done|]. intros e' _. split; [done|]. split; [done|].
      rewrite verifyHeaderSignatureCached_miss by (fold key; by rewrite Hsame).
      by destruct (verifyHeaderSignature env chain header commitSig commitBitmap w')
        as [[[]|e''] w''].
  - intros Hc. rewrite verifyHeaderSignatureCached_hit by done. simpl.
    split; [done|]. split; [done|]. intros k. unfold memo at 1. simpl.
    apply lru_Get_Contains.
  - intros k. destruct (lru.Contains key (memo w)) eqn:Hc.
    + rewrite verifyHeaderSignatureCached_hit by done. unfold memo at 1. simpl.
      rewrite lru_Get_Contains. by left.
    + rewrite (Hmiss eq_refl).
      destruct (verifyHeaderSignature env chain header commitSig commitBitmap w)
        as [[[]|e] w'] eqn:Hv; simpl in *.
      * unfold memo at 1. simpl. fold (memo w'). rewrite Hsame.
        intros [->|Hk]%lru_Add_Contains_inv; [by right|by left].
      * rewrite Hsame. by left.
Qed.

Lemma verifyHeaderSignatureCached_spec_witness :
  (verifyHeaderSignatureCached Run.env0 (Run.mkChain 0 100 200) Run.signedHeader
     [Byte.x01] Run.bitmap64 (Run.world0 Run.emptyDB)).1
  = (verifyHeaderSignature Run.env0 (Run.mkChain 0 100 200) Run.signedHeader
       [Byte.x01] Run.bitmap64 (Run.world0 Run.emptyDB)).1.
Proof.
  destruct (verifyHeaderSignatureCached_spec Run.env0 (Run.mkChain 0 100 200)
              Run.signedHeader [Byte.x01] Run.bitmap64 (Run.world0 Run.emptyDB))
    as [H _].
  destruct H as [H _]; [reflexivity|exact H].
Defined.

(** C4, as stated, fails on a bitmap of 65 bytes: once the triple with its
    first 64 bytes has been verified, the memoized verification of the 65
    byte bitmap returns success, where a fresh verification of it fails at
    decode time. *)
Lemma verifyHeaderSignatureCached_counterexample :
  let cached bm := verifyHeaderSignatureCached Run.env0 (Run.mkChain 0 100 200)
                     Run.signedHeader [Byte.x01] bm in
  let fresh bm := verifyHeaderSignature Run.env0 (Run.mkChain 0 100 200)
                    Run.signedHeader [Byte.x01] bm in
  let w1 := (cached Run.bitmap64 (Run.world0 Run.emptyDB)).2 in
  (cached Run.bitmap64 (Run.world0 Run.emptyDB)).1 = Ok tt /\
  (cached Run.bitmap65 w1).1 = Ok tt /\
  (fresh Run.bitmap65 w1).1
    = Err (errors.Wrap (errors.External 7) "deserialize signature and bitmap") /\
  (cached Run.bitmap65 w1).1 <> (fresh Run.bitmap65 w1).1.
Proof. repeat split; try reflexivity. discriminate. Qed.

(** ** The key of the memo *)

Lemma newVerifiedSigKey_take blockHash sig (bm bm' : list byte) :
  take bitmapKeyBytes bm = take bitmapKeyBytes bm' ->
  newVerifiedSigKey blockHash sig bm = newVerifiedSigKey blockHash sig bm'.
Proof.
  unfold newVerifiedSigKey, bitmapKeyBytes. intros Htake. rewrite Htake.
  apply (f_equal length) in Htake. rewrite !length_take in Htake.
  assert (E : (64 - length bm = 64 - length bm')%nat).
  { generalize dependent (length bm). generalize dependent (length bm').
    intros n m Htake. lia. }
  by rewrite E.
Qed.

(** C5: two bitmaps with the same first 64 bytes give the same key, for
    the same block hash and signature; and after a call of
    verifyHeaderSignatureCached that returned success with one of them, the
    call with the other returns success too, whatever the collaborators and
    the chain are, and makes no call: the trace, the state and the cache of
    epoch contexts are as they were. *)
Theorem newVerifiedSigKey_prefix
    env env' chain chain' header header' commitSig (bm bm' : list byte) w :
  block.Hash header = block.Hash header' ->
  take bitmapKeyBytes bm = take bitmapKeyBytes bm' ->
  newVerifiedSigKey (block.Hash header) commitSig bm
    = newVerifiedSigKey (block.Hash header') commitSig bm' /\
  let first := verifyHeaderSignatureCached env chain header commitSig bm w in
  (first.1 = Ok tt ->
   let second := verifyHeaderSignatureCached env' chain' header' commitSig bm' first.2 in
   second.1 = Ok tt /\
   trace second.2 = trace first.2 /\
   statedb second.2 = statedb first.2 /\
   epochCtxCache (eng second.2) = epochCtxCache (eng first.2)).
Proof.
  intros Hhash Htake.
  assert (Hkey : newVerifiedSigKey (block.Hash header) commitSig bm
                 = newVerifiedSigKey (block.Hash header') commitSig bm').
  { rewrite Hhash. by apply newVerifiedSigKey_take. }
  split; [exact Hkey|]. intros first Hok second.
  assert (Hin : lru.Contains (newVerifiedSigKey (block.Hash header') commitSig bm')
                  (memo first.2) = true).
  { rewrite <- Hkey. subst first.
    destruct (lru.Contains (newVerifiedSigKey (block.Hash header) commitSig bm) (memo w))
      eqn:Hc.
    - rewrite verifyHeaderSignatureCached_hit by done. unfold memo at 1. simpl.
      by rewrite lru_Get_Contains.
    - rewrite verifyHeaderSignatureCached_miss in Hok |- * by done.
      pose proof (verifyHeaderSignature_sameMemo env chain header commitSig bm w) as Hsame.
      unfold sameMemo in Hsame.
      destruct (verifyHeaderSignature env chain header commitSig bm w)
        as [[[]|e] w'] eqn:Hv; simpl in *; [|discriminate].
      unfold memo at 1. simpl. apply lru_Add_Contains. }
  subst second. by rewrite verifyHeaderSignatureCached_hit.
Qed.

Lemma newVerifiedSigKey_prefix_witness :
  (verifyHeaderSignatureCached Run.env0 (Run.mkChain 0 100 200) Run.signedHeader
     [Byte.x01] Run.bitmap65
     (verifyHeaderSignatureCached Run.env0 (Run.mkChain 0 100 200) Run.signedHeader
        [Byte.x01] Run.bitmap64 (Run.world0 Run.emptyDB)).2).1
  = Ok tt.
Proof.
  destruct (newVerifiedSigKey_prefix Run.env0 Run.env0
              (Run.mkChain 0 100 200) (Run.mkChain 0 100 200)
              Run.signedHeader Run.signedHeader [Byte.x01] Run.bitmap64 Run.bitmap65
              (Run.world0 Run.emptyDB)) as [_ H];
    [reflexivity|reflexivity|].
  destruct H as [H _]; [reflexivity|exact H].
Defined.

(** * Further properties of the engine *)

(** ** Header verification *)

Lemma mapErr_run {A} (f : error -> error) (m : M A) w :
  mapErr f m w = (match (m w).1 with Ok a => Ok a | Err e => Err (f e) end, (m w).2).
Proof. unfold mapErr. by destruct (m w) as [[a|e] w']. Qed.

Lemma wrapErr_Ok {A} msg (r : result A) a : wrapErr msg r = Ok a <-> r = Ok a.
Proof. destruct r; simpl; split; congruence. Qed.

Lemma VerifySeal_run env chain header w :
  (Uint64 (block.Number (engine.CurrentHeader chain)) <=? 1) = false ->
  let number := sub64 (Uint64 (block.Number header)) 1 in
  let w1 := logEvent (EvGetHeader (block.ParentHash header) number) w in
  VerifySeal env chain (Some header) w =
  match engine.GetHeader chain (block.ParentHash header) number with
  | None => (Err (errors.New "[VerifySeal] no parent header found"), w1)
  | Some parent =>
      let c := verifyHeaderSignatureCached env chain parent
                 (block.LastCommitSignature header) (block.LastCommitBitmap header) w1 in
      (wrapErr "verify signature for parent" c.1, c.2)
  end.
Proof.
  intros Htip number w1. unfold VerifySeal. rewrite Htip, bind_run. simpl.
  fold number. fold w1.
  destruct (engine.GetHeader chain (block.ParentHash header) number); [|done].
  by rewrite mapErr_run.
Qed.

(** X1: VerifyHeader returns ErrUnknownAncestor when the parent is not
    found at the header's number minus one, after the one lookup and
    nothing else; with the parent found and no seal asked for it returns
    success without looking at any signature; with a seal asked for and a
    tip beyond block 1 it succeeds exactly when the memoized verification
    of the parent header, with the commit signature and bitmap this header
    carries, succeeds. *)
Theorem VerifyHeader_verdict env chain header seal w :
  let number := sub64 (Uint64 (block.Number header)) 1 in
  let lookup := EvGetHeader (block.ParentHash header) number in
  let r := VerifyHeader env chain header seal w in
  (engine.GetHeader chain (block.ParentHash header) number = None ->
     r = (Err errors.ErrUnknownAncestor, logEvent lookup w)) /\
  (forall parent,
     engine.GetHeader chain (block.ParentHash header) number = Some parent ->
     (seal = false -> r = (Ok tt, logEvent lookup w)) /\
     (seal = true ->
      1 < Uint64 (block.Number (engine.CurrentHeader chain)) ->
      let c := verifyHeaderSignatureCached env chain parent
                 (block.LastCommitSignature header) (block.LastCommitBitmap header)
                 (logEvent lookup (logEvent lookup w)) in
      r.2 = c.2 /\ (r.1 = Ok tt <-> c.1 = Ok tt))).
Proof.
  intros number lookup r. subst r. unfold VerifyHeader. fold number. fold lookup.
  rewrite bind_run. simpl. split.
  - by intros ->.
  - intros parent Hp. rewrite Hp. split; [by intros ->|].
    intros -> Htip.
    rewrite VerifySeal_run by (by apply Z.leb_gt).
    fold number. fold lookup. rewrite Hp. simpl.
    split; [done|]. apply wrapErr_Ok.
Qed.

Lemma VerifyHeader_verdict_witness :
  (VerifyHeader Run.env0 (Run.mkChain 0 100 200) (Run.plainHeader 0) false
     (Run.world0 Run.emptyDB)).1 = Ok tt.
Proof.
  destruct (VerifyHeader_verdict Run.env0 (Run.mkChain 0 100 200) (Run.plainHeader 0) false
              (Run.world0 Run.emptyDB)) as [_ H].
  destruct (H _ eq_refl) as [H1 _]. by rewrite H1.
Defined.

(** X2: beyond block 1, VerifySeal refuses a nil header without touching
    anything, fails when the parent header is not found, and otherwise
    returns the verdict of the memoized verification of the parent header
    with the commit signature and bitmap of the header, its error
    wrapped. *)
Theorem VerifySeal_beyond_genesis env chain w :
  1 < Uint64 (block.Number (engine.CurrentHeader chain)) ->
  VerifySeal env chain None w = (Err (errors.New "[VerifySeal] nil block header"), w) /\
  forall header,
    let number := sub64 (Uint64 (block.Number header)) 1 in
    let w1 := logEvent (EvGetHeader (block.ParentHash header) number) w in
    let r := VerifySeal env chain (Some header) w in
    (engine.GetHeader chain (block.ParentHash header) number = None ->
       r = (Err (errors.New "[VerifySeal] no parent header found"), w1)) /\
    (forall parent,
       engine.GetHeader chain (block.ParentHash header) number = Some parent ->
       let c := verifyHeaderSignatureCached env chain parent
                  (block.LastCommitSignature header) (block.LastCommitBitmap header) w1 in
       r.2 = c.2 /\
       (r.1 = Ok tt <-> c.1 = Ok tt) /\
       (forall e, c.1 = Err e -> r.1 = Err (errors.Wrap e "verify signature for parent"))).
Proof.
  intros Htip. apply Z.leb_gt in Htip. split.
  - unfold VerifySeal. by rewrite Htip.
  - intros header number w1 r. subst r. rewrite VerifySeal_run by done.
    fold number. fold w1. split.
    + by intros ->.
    + intros parent Hp c. rewrite Hp. simpl. fold c.
      split; [done|]. split; [apply wrapErr_Ok|]. by intros e ->.
Qed.

Lemma VerifySeal_beyond_genesis_witness :
  VerifySeal Run.env0 (Run.mkChain 0 100 200) None (Run.world0 Run.emptyDB)
  = (Err (errors.New "[VerifySeal] nil block header"), Run.world0 Run.emptyDB).
Proof.
  apply (VerifySeal_beyond_genesis Run.env0 (Run.mkChain 0 100 200)). reflexivity.
Defined.

(** ** The key of the memo, byte by byte *)

Lemma newVerifiedSigKey_length blockHash sig (bm : list byte) :
  length (bitmap (newVerifiedSigKey blockHash sig bm)) = bitmapKeyBytes.
Proof.
  unfold newVerifiedSigKey, bitmapKeyBytes. simpl.
  rewrite length_app, length_take, length_replicate.
  generalize (length bm). intros n. lia.
Qed.

Lemma newVerifiedSigKey_lookup blockHash sig (bm : list byte) i :
  (i < bitmapKeyBytes)%nat ->
  bitmap (newVerifiedSigKey blockHash sig bm) !! i = Some (default Byte.x00 (bm !! i)).
Proof.
  unfold newVerifiedSigKey, bitmapKeyBytes. simpl. intros Hi.
  destruct (decide (i < length bm)%nat) as [Hlt|Hge].
  - rewrite lookup_app_l by (rewrite length_take; generalize dependent (length bm); lia).
    rewrite lookup_take_lt by done.
    destruct (lookup_lt_is_Some_2 bm i Hlt) as [b Hb]. by rewrite Hb.
  - rewrite (lookup_ge_None_2 bm i) by lia. simpl.
    rewrite lookup_app_r by (rewrite length_take; generalize dependent (length bm); lia).
    rewrite length_take. apply lookup_replicate_2.
    generalize dependent (length bm). lia.
Qed.

(** X3: the bitmap of a memo key has exactly 64 bytes, whatever the
    length of the bitmap it is made from; byte [i] of the key is byte [i]
    of the bitmap, or zero past the end of the bitmap. *)
Theorem newVerifiedSigKey_bitmap blockHash sig (bm : list byte) :
  length (bitmap (newVerifiedSigKey blockHash sig bm)) = 64%nat /\
  forall i, (i < 64)%nat ->
    bitmap (newVerifiedSigKey blockHash sig bm) !! i = Some (default Byte.x00 (bm !! i)).
Proof. split; [apply newVerifiedSigKey_length|apply newVerifiedSigKey_lookup]. Qed.

(** X4: on bitmaps of one length of at most 64 bytes the key loses
    nothing: two triples with the same key have the same block hash, the
    same signature and the same bitmap. *)
Theorem newVerifiedSigKey_inj blockHash blockHash' sig sig' (bm bm' : list byte) :
  length bm = length bm' ->
  (length bm <= 64)%nat ->
  newVerifiedSigKey blockHash sig bm = newVerifiedSigKey blockHash' sig' bm' ->
  blockHash = blockHash' /\ sig = sig' /\ bm = bm'.
Proof.
  intros Hlen Hle. unfold newVerifiedSigKey, bitmapKeyBytes.
  intros [= Hh Hs Hb]. split; [done|]. split; [done|].
  rewrite !take_ge in Hb by lia.
  apply app_inj_1 in Hb; [tauto|done].
Qed.

Lemma newVerifiedSigKey_inj_witness :
  [Byte.xaa] = [Byte.xaa] /\ [Byte.x01] = [Byte.x01] /\ [Byte.x07; Byte.x00] = [Byte.x07; Byte.x00].
Proof.
  apply (newVerifiedSigKey_inj [Byte.xaa] [Byte.xaa] [Byte.x01] [Byte.x01]
           [Byte.x07; Byte.x00] [Byte.x07; Byte.x00]);
    [reflexivity|simpl; lia|reflexivity].
Defined.

Lemma newVerifiedSigKey_zeros blockHash sig (bm : list byte) n :
  newVerifiedSigKey blockHash sig (bm ++ replicate n Byte.x00)
  = newVerifiedSigKey blockHash sig bm.
Proof.
  assert (E : bitmap (newVerifiedSigKey blockHash sig (bm ++ replicate n Byte.x00))
              = bitmap (newVerifiedSigKey blockHash sig bm)).
  { apply list_eq. intros i.
    destruct (decide (i < bitmapKeyBytes)%nat) as [Hi|Hi].
    - rewrite !newVerifiedSigKey_lookup by done. f_equal.
      destruct (decide (i < length bm)%nat) as [Hlt|Hge].
      + by rewrite lookup_app_l.
      + rewrite lookup_app_r by lia. rewrite (lookup_ge_None_2 bm i) by lia.
        destruct (replicate n Byte.x00 !! (i - length bm)%nat) as [b|] eqn:Hb; [|done].
        apply lookup_replicate in Hb as [-> _]. done.
    - rewrite !lookup_ge_None_2; [done|rewrite newVerifiedSigKey_length; lia..]. }
  unfold newVerifiedSigKey in *. simpl in E. by rewrite E.
Qed.

Lemma verifyHeaderSignatureCached_same_key
    env env' chain chain' header header' sig sig' (bm bm' : list byte) w :
  newVerifiedSigKey (block.Hash header) sig bm
    = newVerifiedSigKey (block.Hash header') sig' bm' ->
  let first := verifyHeaderSignatureCached env chain header sig bm w in
  first.1 = Ok tt ->
  let second := verifyHeaderSignatureCached env' chain' header' sig' bm' first.2 in
  second.1 = Ok tt /\ trace second.2 = trace first.2.
Proof.
  intros Hkey first Hok second.
  assert (Hin : lru.Contains (newVerifiedSigKey (block.Hash header') sig' bm')
                  (memo first.2) = true).
  { rewrite <- Hkey. subst first.
    destruct (lru.Contains (newVerifiedSigKey (block.Hash header) sig bm) (memo w)) eqn:Hc.
    - rewrite verifyHeaderSignatureCached_hit by done. unfold memo at 1. simpl.
      by rewrite lru_Get_Contains.
    - rewrite verifyHeaderSignatureCached_miss in Hok |- * by done.
      destruct (verifyHeaderSignature env chain header sig bm w)
        as [[[]|e] w'] eqn:Hv; simpl in *; [|discriminate].
      unfold memo at 1. simpl. apply lru_Add_Contains. }
  subst second. by rewrite verifyHeaderSignatureCached_hit.
Qed.

(** X5: the key does not record the length of the bitmap: a bitmap and
    the same bitmap followed by zero bytes give the same key.  So once a
    triple has been verified with success, the memoized verification of the
    triple with zero bytes appended to the bitmap returns success from the
    memo, without a call. *)
Theorem newVerifiedSigKey_trailing_zeros env chain header sig (bm : list byte) n w :
  newVerifiedSigKey (block.Hash header) sig (bm ++ replicate n Byte.x00)
    = newVerifiedSigKey (block.Hash header) sig bm /\
  let first := verifyHeaderSignatureCached env chain header sig bm w in
  (first.1 = Ok tt ->
   let second :=
     verifyHeaderSignatureCached env chain header sig (bm ++ replicate n Byte.x00) first.2 in
   second.1 = Ok tt /\ trace second.2 = trace first.2).
Proof.
  split; [apply newVerifiedSigKey_zeros|].
  intros first Hok. apply verifyHeaderSignatureCached_same_key; [|exact Hok].
  symmetry. apply newVerifiedSigKey_zeros.
Qed.

(** ** A fresh verification *)

(** X7: with no epoch context cached for the header, a fresh verification
    succeeds exactly when the shard state of the header's epoch resolves
    (recomputed or read, as readShardState decides), the committee of the
    header's shard is found in it, its keys decode, the quorum verifier is
    built, the signature and bitmap decode against the keys, the mask
    reaches quorum and the aggregate signature verifies over the commit
    payload of the header's epoch, hash, number and view id. *)
Theorem verifyHeaderSignature_success env chain header commitSig commitBitmap w :
  lru.find (newEpochCtxKeyFromHeader header) (lru.items (epochCtxCache (eng w))) = None ->
  let epoch := block.Epoch header in
  let shardID := block.ShardID header in
  let payload :=
    ConstructCommitPayload env chain epoch (block.Hash header)
      (Uint64 (block.Number header)) (Uint64 (block.ViewID header)) in
  (verifyHeaderSignature env chain header commitSig commitBitmap w).1 = Ok tt <->
  exists ss comm keys verifier aggSig mask,
    (if needRecalculateStateShard chain epoch shardID
     then Compute env epoch chain else engine.ReadShardState chain epoch) = Ok ss /\
    shard.FindCommitteeByID ss shardID = Ok comm /\
    shard.BLSPublicKeys comm = Ok keys /\
    NewVerifier env comm epoch (params.IsStaking (engine.Config chain) epoch) = Ok verifier /\
    DecodeSigBitmap env commitSig commitBitmap keys = Ok (aggSig, mask) /\
    quorum.IsQuorumAchievedByMask verifier mask = true /\
    bls.VerifyHash aggSig (bls.AggregatePublic mask) payload = true.
Proof.
  intros Hmiss epoch shardID payload.
  unfold verifyHeaderSignature, getCachedEpochCtx, readEpochCtxFromChain, readShardState.
  fold epoch shardID payload.
  unfold mbind, M_bind, modifyEngine, mapErr, call, lift, log, fail, mret, M_ret, lru.Get.
  rewrite Hmiss. simpl.
  destruct (needRecalculateStateShard chain epoch shardID); simpl;
    [destruct (Compute env epoch chain) as [ss|e0] eqn:Hss
    |destruct (engine.ReadShardState chain epoch) as [ss|e0] eqn:Hss]; simpl;
    try (split; [done|intros (?&?&?&?&?&?&?&?); congruence]);
    (destruct (shard.FindCommitteeByID ss shardID) as [comm|e1] eqn:Hc; simpl;
       [|split; [done|intros (?&?&?&?&?&?&[= <-]&?&?); congruence]]);
    (destruct (shard.BLSPublicKeys comm) as [keys|e2] eqn:Hk; simpl;
       [|split; [done|intros (?&?&?&?&?&?&[= <-]&?&?&?); congruence]]);
    (destruct (NewVerifier env comm epoch _) as [verifier|e3] eqn:Hv; simpl;
       [|split; [done|intros (?&?&?&?&?&?&[= <-]&?&?&?&?); congruence]]);
    (destruct (DecodeSigBitmap env commitSig commitBitmap keys) as [[aggSig mask]|e4] eqn:Hd;
       simpl; [|split; [done|intros (?&?&?&?&?&?&[= <-]&?&?&?&?&?); congruence]]);
    (destruct (quorum.IsQuorumAchievedByMask verifier mask) eqn:Hq; simpl;
       [|split; [done|intros (?&?&?&?&?&?&[= <-]&?&?&?&?&?&?); congruence]]);
    (destruct (bls.VerifyHash aggSig (bls.AggregatePublic mask) payload) eqn:Hh; simpl;
       [|split; [done|intros (?&?&?&?&?&?&[= <-]&?&?&?&?&?&?); congruence]]);
    (split; [intros _|done]; by exists ss, comm, keys, verifier, aggSig, mask).
Qed.

Lemma verifyHeaderSignature_success_witness :
  (verifyHeaderSignature Run.env0 (Run.mkChain 0 100 200) Run.signedHeader
     [Byte.x01] Run.bitmap64 (Run.world0 Run.emptyDB)).1 = Ok tt.
Proof.
  apply (verifyHeaderSignature_success Run.env0 (Run.mkChain 0 100 200) Run.signedHeader
           [Byte.x01] Run.bitmap64 (Run.world0 Run.emptyDB)); [reflexivity|].
  do 6 eexists. repeat split; reflexivity.
Defined.

(** ** The caches of the engine *)

Section OnEngine.
Context (P : engineImpl -> engineImpl -> Prop) `{!PreOrder P}.

Lemma onEngine_refl w : onEngine P w w.
Proof. unfold onEngine. reflexivity. Qed.

Lemma onEngine_trans a b c : onEngine P a b -> onEngine P b c -> onEngine P a c.
Proof. unfold onEngine. intros. by etrans. Qed.

Lemma onEngine_bind {A B} (m : M A) (f : A -> M B) :
  stable (onEngine P) m -> (forall a, stable (onEngine P) (f a)) ->
  stable (onEngine P) (m ≫= f).
Proof. apply stable_bind, onEngine_trans. Qed.

Lemma onEngine_forM {A} (l : list A) (f : A -> M unit) :
  (forall a, stable (onEngine P) (f a)) -> stable (onEngine P) (forM_ l f).
Proof. apply stable_forM; [apply onEngine_refl|apply onEngine_trans]. Qed.

Lemma onEngine_ret {A} (a : A) : stable (onEngine P) (mret a).
Proof. apply stable_ret, onEngine_refl. Qed.

Lemma onEngine_fail {A} e : stable (onEngine P) (@fail A e).
Proof. apply stable_fail, onEngine_refl. Qed.

Lemma onEngine_lift {A} (r : result A) : stable (onEngine P) (lift r).
Proof. apply stable_lift, onEngine_refl. Qed.

Lemma onEngine_getDB : stable (onEngine P) getDB.
Proof. apply stable_getDB, onEngine_refl. Qed.

Lemma onEngine_log ev : stable (onEngine P) (log ev).
Proof. intros w. unfold onEngine. simpl. reflexivity. Qed.

Lemma onEngine_call {A} ev (r : result A) : stable (onEngine P) (call ev r).
Proof. intros w. unfold onEngine. simpl. reflexivity. Qed.

Lemma onEngine_callDB {A} ev (f : state.DB -> result A * state.DB) :
  stable (onEngine P) (callDB ev f).
Proof. intros w. unfold callDB. destruct (f (statedb w)). unfold onEngine. simpl. reflexivity. Qed.

Lemma onEngine_modifyDB f : stable (onEngine P) (modifyDB f).
Proof. intros w. unfold onEngine. simpl. reflexivity. Qed.

Lemma onEngine_accumulateRewards env chain header sigsReady :
  stable (onEngine P) (accumulateRewards env chain header sigsReady).
Proof.
  intros w. unfold accumulateRewards.
  destruct (AccumulateRewardsAndCountSigs _ _ _ _ _ _). unfold onEngine. simpl. reflexivity.
Qed.

Lemma onEngine_payoutDelegations env header validator lockPeriod noEarlyUnlock indices :
  forall wrapper,
    stable (onEngine P)
      (payoutDelegations env header validator lockPeriod noEarlyUnlock indices wrapper).
Proof.
  induction indices as [|i indices IH]; intros wrapper; simpl.
  - apply onEngine_ret.
  - destruct (staking.Delegations wrapper !! i); [|apply IH].
    destruct (RemoveUnlockedUndelegations _ _ _ _ _ _) as [d1 total].
    apply onEngine_bind; [apply onEngine_log|intros _].
    apply onEngine_bind; [apply onEngine_modifyDB|intros _].
    apply onEngine_bind; [|intros _; apply IH].
    destruct (total =? 0); [apply onEngine_ret|].
    apply onEngine_bind; [apply onEngine_log|intros _; apply onEngine_modifyDB].
Qed.
End OnEngine.

(** Break a computation down to its primitive steps. *)
Ltac onEngine_steps_with known :=
  repeat first
    [ solve [known]
    | apply onEngine_bind; [solve [apply _]..| |intros ?]
    | apply onEngine_forM; [solve [apply _]..|intros ?]
    | apply stable_mapErr
    | solve [apply onEngine_ret; apply _] | solve [apply onEngine_fail; apply _]
    | solve [apply onEngine_lift; apply _] | solve [apply onEngine_getDB; apply _]
    | solve [apply onEngine_log; apply _] | solve [apply onEngine_call; apply _]
    | solve [apply onEngine_callDB; apply _] | solve [apply onEngine_modifyDB; apply _]
    | solve [apply onEngine_accumulateRewards; apply _]
    | solve [apply onEngine_payoutDelegations; apply _]
    | match goal with
      | |- stable _ (if ?b then _ else _) => destruct b
      | |- stable _ (match ?x with _ => _ end) => destruct x
      | |- stable _ (let '(_, _) := ?x in _) => destruct x
      end ].

Ltac onEngine_steps := onEngine_steps_with fail.

#[global] Instance sameEpochCtxEntries_preorder : PreOrder sameEpochCtxEntries.
Proof.
  split; [by intros e k|].
  intros a b c H1 H2 k. by rewrite H2, H1.
Qed.

Lemma getCachedEpochCtx_entries header :
  stable (onEngine sameEpochCtxEntries) (getCachedEpochCtx header).
Proof.
  intros w k. unfold getCachedEpochCtx, modifyEngine.
  destruct (lru.Get (newEpochCtxKeyFromHeader header) (epochCtxCache (eng w)))
    as [ec c] eqn:Hget. simpl.
  change c with (ec, c).2. rewrite <- Hget. apply lru_Get_find.
Qed.

Lemma verifyHeaderSignatureCached_entries env chain header commitSig commitBitmap :
  stable (onEngine sameEpochCtxEntries)
    (verifyHeaderSignatureCached env chain header commitSig commitBitmap).
Proof.
  assert (Hget : forall key, stable (onEngine sameEpochCtxEntries) (verifiedSigCacheGet key)).
  { intros key w k. unfold verifiedSigCacheGet, modifyEngine.
    by destruct (lru.Get key (verifiedSigCache (eng w))). }
  assert (Hadd : forall key, stable (onEngine sameEpochCtxEntries) (verifiedSigCacheAdd key)).
  { by intros key w k. }
  unfold verifyHeaderSignatureCached.
  apply onEngine_bind; [solve [apply _]..|apply Hget|intros ok].
  destruct ok; [onEngine_steps|].
  apply onEngine_bind; [solve [apply _]..| |intros _; apply Hadd].
  unfold verifyHeaderSignature.
  apply onEngine_bind; [solve [apply _]..|apply getCachedEpochCtx_entries|intros cached].
  apply onEngine_bind; [solve [apply _]..| |intros ec].
  { destruct cached; [onEngine_steps|].
    unfold readEpochCtxFromChain, readShardState. onEngine_steps. }
  onEngine_steps.
Qed.

(** X6: the engine asks its cache of epoch contexts but never adds to it:
    after VerifyHeader, VerifySeal or VerifyHeaderSignature every key has
    the entry it had before, so a cache that starts empty stays empty; and
    Finalize leaves the engine, with both its caches, exactly as it was. *)
Theorem epochCtxCache_never_filled env chain header seal commitSig commitBitmap w k :
  let entry w' := lru.find k (lru.items (epochCtxCache (eng w'))) in
  entry (VerifyHeader env chain header seal w).2 = entry w /\
  entry (VerifySeal env chain (Some header) w).2 = entry w /\
  entry (VerifyHeaderSignature env chain header commitSig commitBitmap w).2 = entry w /\
  forall txs receipts outcxs incxs stks doubleSigners sigsReady viewID,
    eng (Finalize env chain header txs receipts outcxs incxs stks
           doubleSigners sigsReady viewID w).2 = eng w.
Proof.
  pose proof (verifyHeaderSignatureCached_entries env chain) as Hc.
  assert (Hseal : forall h, stable (onEngine sameEpochCtxEntries) (VerifySeal env chain h)).
  { intros h. unfold VerifySeal. onEngine_steps_with ltac:(apply Hc). }
  intros entry. subst entry. simpl. split; [|split; [|split]].
  - assert (H : stable (onEngine sameEpochCtxEntries) (VerifyHeader env chain header seal)).
    { unfold VerifyHeader. onEngine_steps_with ltac:(apply Hseal). }
    apply H.
  - apply Hseal.
  - assert (H : stable (onEngine sameEpochCtxEntries)
                  (VerifyHeaderSignature env chain header commitSig commitBitmap)).
    { unfold VerifyHeaderSignature. onEngine_steps_with ltac:(apply Hc). }
    apply H.
  - intros txs receipts outcxs incxs stks doubleSigners sigsReady viewID.
    assert (H : stable (onEngine eq)
                  (Finalize env chain header txs receipts outcxs incxs stks
                     doubleSigners sigsReady viewID)).
    { unfold Finalize, payoutUndelegations, setLastEpochInCommittee, stateValidatorWrapper,
        applySlashes.
      onEngine_steps. }
    symmetry. apply H.
Qed.

(** ** The payout of undelegations *)

Section PayoutState.
Variables (env : Env) (chain : engine.ChainReader) (header : block.Header).

Let lockPeriod := GetLockPeriodInEpoch env chain (block.Epoch header).
Let noEarlyUnlock := params.IsNoEarlyUnlock (engine.Config chain) (block.Epoch header).

(** The wrapper after the delegations before index [i] have been
    released. *)
Let partly (i : nat) (wrapper : staking.ValidatorWrapper) : staking.ValidatorWrapper :=
  {| staking.LastEpochInCommittee := staking.LastEpochInCommittee wrapper;
     staking.Delegations :=
       take i (staking.Delegations wrapper) ++
       map (fun d => (removeUnlockedAt env chain header
                        (staking.LastEpochInCommittee wrapper) d).1)
         (drop i (staking.Delegations wrapper)) |}.

Lemma creditAll_validators credits s :
  state.validators (creditAll credits s) = state.validators s.
Proof. revert s. induction credits as [|c credits IH]; intros s; simpl; [done|]. by rewrite IH. Qed.

Lemma creditAll_set credits v wrapper s :
  creditAll credits (state.setValidatorWrapper v wrapper s)
  = state.setValidatorWrapper v wrapper (creditAll credits s).
Proof. revert s. induction credits as [|c credits IH]; intros s; simpl; [done|]. by rewrite <- IH. Qed.

Lemma set_set v wrapper wrapper' s :
  state.setValidatorWrapper v wrapper (state.setValidatorWrapper v wrapper' s)
  = state.setValidatorWrapper v wrapper s.
Proof. unfold state.setValidatorWrapper. simpl. by rewrite insert_insert_eq. Qed.

Lemma payoutDelegations_state validator n : forall i wrapper w,
  length (staking.Delegations wrapper) = (i + n)%nat ->
  let r := payoutDelegations env header validator lockPeriod noEarlyUnlock
             (seq i n) wrapper w in
  r.1 = Ok tt /\
  statedb r.2 =
    creditAll (withdrawals env chain header (staking.LastEpochInCommittee wrapper)
                 (drop i (staking.Delegations wrapper)))
      (match n with
       | O => statedb w
       | S _ => state.setValidatorWrapper validator (partly i wrapper) (statedb w)
       end).
Proof.
  induction n as [|n IH]; intros i wrapper w Hlen; simpl.
  - rewrite drop_ge by lia. done.
  - destruct (lookup_lt_is_Some_2 (staking.Delegations wrapper) i ltac:(lia)) as [d Hd].
    rewrite Hd. rewrite (drop_S _ _ _ Hd). simpl.
    unfold withdrawals at 1. simpl. fold (withdrawals env chain header).
    unfold removeUnlockedAt at 1 2 3. fold lockPeriod noEarlyUnlock.
    destruct (RemoveUnlockedUndelegations env d (block.Epoch header)
                (staking.LastEpochInCommittee wrapper) lockPeriod noEarlyUnlock)
      as [d' total] eqn:Hrem.
    set (wrapper' := {| staking.LastEpochInCommittee := staking.LastEpochInCommittee wrapper;
                        staking.Delegations := <[i:=d']> (staking.Delegations wrapper) |}).
    assert (Hlen' : length (staking.Delegations wrapper') = (S i + n)%nat).
    { simpl. rewrite length_insert. lia. }
    assert (Hdrop : drop (S i) (staking.Delegations wrapper')
                    = drop (S i) (staking.Delegations wrapper)).
    { simpl. by rewrite drop_insert_lt by lia. }
    assert (Hpartly : partly (S i) wrapper' = partly i wrapper).
    { unfold partly. simpl. f_equal.
      rewrite drop_insert_lt by lia.
      rewrite take_insert_lt by lia.
      rewrite (drop_S _ _ _ Hd). simpl.
      unfold removeUnlockedAt at 2. fold lockPeriod noEarlyUnlock. rewrite Hrem. simpl.
      rewrite (take_S_r _ _ _ Hd).
      rewrite insert_app_r_alt by (rewrite length_take; lia).
      rewrite length_take. replace (i - i `min` length (staking.Delegations wrapper))%nat
        with 0%nat by lia.
      simpl. by rewrite <- app_assoc. }
    assert (Hmatch : forall s0,
      match n with
      | O => state.setValidatorWrapper validator wrapper' s0
      | S _ => state.setValidatorWrapper validator (partly (S i) wrapper')
                 (state.setValidatorWrapper validator wrapper' s0)
      end = state.setValidatorWrapper validator (partly i wrapper) s0).
    { intros s0. destruct n.
      - rewrite <- Hpartly. f_equal. unfold partly.
        rewrite drop_ge by lia. rewrite take_ge by lia. simpl. by rewrite app_nil_r.
      - by rewrite set_set, Hpartly. }
    assert (Hadd : forall a x wr s0,
      state.AddBalance a x (state.setValidatorWrapper validator wr s0)
      = state.setValidatorWrapper validator wr (state.AddBalance a x s0)) by done.
    rewrite bind_run. simpl. rewrite bind_run. simpl.
    destruct (total =? 0) eqn:Htot; simpl.
    + rewrite bind_run. simpl.
      match goal with |- context [payoutDelegations _ _ _ _ _ _ _ ?w1] =>
        destruct (IH (S i) wrapper' w1 Hlen') as [Hok Hst] end.
      split; [exact Hok|]. rewrite Hst, Hdrop. simpl. by rewrite Hmatch.
    + repeat (rewrite bind_run; simpl).
      match goal with |- context [payoutDelegations _ _ _ _ _ _ _ ?w1] =>
        destruct (IH (S i) wrapper' w1 Hlen') as [Hok Hst] end.
      split; [exact Hok|]. rewrite Hst, Hdrop. simpl.
      rewrite Hadd, Hmatch. by rewrite <- Hadd.
Qed.
End PayoutState.

Section PayoutLoop.
Variables (env : Env) (chain : engine.ChainReader) (header : block.Header).

Lemma setValidatorWrapper_id v wrapper s :
  state.validators s !! v = Some wrapper -> state.setValidatorWrapper v wrapper s = s.
Proof.
  intros Hv. destruct s as [vals bals]. unfold state.setValidatorWrapper. simpl in *.
  by rewrite insert_id.
Qed.

Lemma payoutValidator_state validator wrapper w :
  state.validators (statedb w) !! validator = Some wrapper ->
  let r := (wrapper ← stateValidatorWrapper validator;
            payoutDelegations env header validator
              (GetLockPeriodInEpoch env chain (block.Epoch header))
              (params.IsNoEarlyUnlock (engine.Config chain) (block.Epoch header))
              (seq 0 (length (staking.Delegations wrapper))) wrapper) w in
  r.1 = Ok tt /\
  statedb r.2 =
    creditAll (withdrawals env chain header (staking.LastEpochInCommittee wrapper)
                 (staking.Delegations wrapper))
      (state.setValidatorWrapper validator (paidWrapper env chain header wrapper)
         (statedb w)).
Proof.
  intros Hv. unfold stateValidatorWrapper. simpl.
  rewrite bind_assoc, bind_run. simpl.
  unfold mapErr, lift, state.ValidatorWrapper. rewrite Hv. simpl.
  rewrite bind_run. simpl.
  destruct (payoutDelegations_state env chain header validator
              (length (staking.Delegations wrapper)) 0 wrapper w eq_refl) as [Hok Hst].
  split; [exact Hok|]. rewrite Hst. rewrite drop_0. f_equal.
  destruct (length (staking.Delegations wrapper)) eqn:Hlen; [|done].
  destruct wrapper as [last ds]. simpl in *. destruct ds; [|done].
  symmetry. by apply setValidatorWrapper_id.
Qed.

Lemma payoutValidator_missing validator w :
  state.validators (statedb w) !! validator = None ->
  (wrapper ← stateValidatorWrapper validator;
   payoutDelegations env header validator
     (GetLockPeriodInEpoch env chain (block.Epoch header))
     (params.IsNoEarlyUnlock (engine.Config chain) (block.Epoch header))
     (seq 0 (length (staking.Delegations wrapper))) wrapper) w
  = (Err validatorLookupFailure, w).
Proof.
  intros Hv. unfold stateValidatorWrapper.
  rewrite bind_assoc, bind_run. simpl.
  unfold mapErr, lift, state.ValidatorWrapper. by rewrite Hv.
Qed.

Lemma paid_present v wrapper' credits s a :
  is_Some (state.validators s !! v) ->
  is_Some (state.validators (creditAll credits (state.setValidatorWrapper v wrapper' s)) !! a)
  <-> is_Some (state.validators s !! a).
Proof.
  intros Hv. rewrite creditAll_validators. simpl.
  destruct (decide (v = a)) as [<-|Hne].
  - rewrite lookup_insert_eq. split; [done|by eexists].
  - by rewrite lookup_insert_ne.
Qed.

Lemma payoutLoop_state vs : forall w,
  let r := forM_ vs (fun validator =>
             wrapper ← stateValidatorWrapper validator;
             payoutDelegations env header validator
               (GetLockPeriodInEpoch env chain (block.Epoch header))
               (params.IsNoEarlyUnlock (engine.Config chain) (block.Epoch header))
               (seq 0 (length (staking.Delegations wrapper))) wrapper) w in
  statedb r.2 = paidOut env chain header vs (statedb w) /\
  (r.1 = Ok tt <-> forall v, v ∈ vs -> is_Some (state.validators (statedb w) !! v)) /\
  (forall e, r.1 = Err e -> e = validatorLookupFailure).
Proof.
  induction vs as [|v vs IH]; intros w; simpl.
  - split; [done|]. split; [|done]. split; [|done]. intros _ v Hv. by apply elem_of_nil in Hv.
  - rewrite bind_run.
    destruct (state.validators (statedb w) !! v) as [wrapper|] eqn:Hv.
    + destruct (payoutValidator_state v wrapper w Hv) as [Hok Hst].
      simpl in Hok, Hst.
      match goal with |- context [match ?m w with _ => _ end] =>
        destruct (m w) as [[[]|e] w1] eqn:Hrun end; simpl in *; [|discriminate].
      destruct (IH w1) as (IH1 & IH2 & IH3).
      split; [by rewrite IH1, Hst|]. split; [|exact IH3].
      rewrite IH2. rewrite Hst. split.
      * intros Hall a [->|Ha]%elem_of_cons; [by rewrite Hv|].
        pose proof (Hall a Ha) as H. by apply paid_present in H; [|rewrite Hv].
      * intros Hall a Ha.
        apply paid_present; [by rewrite Hv|]. apply Hall. apply elem_of_cons. by right.
    + rewrite (payoutValidator_missing v w Hv). simpl.
      split; [done|]. split; [|by intros e [= <-]].
      split; [done|]. intros Hall.
      destruct (Hall v) as [x Hx]; [apply list_elem_of_here|]. congruence.
Qed.

Lemma payoutUndelegations_run w :
  let r := payoutUndelegations env chain header w in
  match engine.ReadValidatorList chain with
  | Err _ =>
      r = (Err (errors.New "[Finalize] failed to read all validators"),
           logEvent EvReadValidatorList w)
  | Ok vs =>
      statedb r.2 = paidOut env chain header vs (statedb w) /\
      (r.1 = Ok tt <-> forall v, v ∈ vs -> is_Some (state.validators (statedb w) !! v)) /\
      (forall e, r.1 = Err e -> e = validatorLookupFailure)
  end.
Proof.
  unfold payoutUndelegations. rewrite bind_run.
  unfold mapErr, call. simpl.
  destruct (engine.ReadValidatorList chain) as [vs|e]; [|done].
  apply (payoutLoop_state vs (logEvent EvReadValidatorList w)).
Qed.
End PayoutLoop.

Lemma withdrawnTo_app a cs cs' :
  withdrawnTo a (cs ++ cs') = withdrawnTo a cs + withdrawnTo a cs'.
Proof.
  induction cs as [|c cs IH]; simpl; [done|].
  destruct (decide (c.1 = a)); lia.
Qed.

Lemma creditAll_balance a credits : forall s,
  balance a (creditAll credits s) = balance a s + withdrawnTo a credits.
Proof.
  induction credits as [|c credits IH]; intros s; simpl; [lia|].
  rewrite IH. unfold balance, state.AddBalance. simpl.
  destruct (decide (c.1 = a)) as [<-|Hne].
  - rewrite lookup_insert_eq. simpl. lia.
  - rewrite lookup_insert_ne by done. lia.
Qed.

Section PaidOutFacts.
Variables (env : Env) (chain : engine.ChainReader) (header : block.Header).

Lemma paidOut_other vs : forall s a,
  a ∉ vs ->
  state.validators (paidOut env chain header vs s) !! a = state.validators s !! a.
Proof.
  induction vs as [|v vs IH]; intros s a Ha; simpl; [done|].
  apply not_elem_of_cons in Ha as [Hne Ha].
  destruct (state.validators s !! v) as [wrapper|] eqn:Hv; [|done].
  rewrite IH by done. rewrite creditAll_validators. simpl.
  by rewrite lookup_insert_ne.
Qed.

Lemma owed_same s s' a vs :
  (forall v, v ∈ vs -> state.validators s' !! v = state.validators s !! v) ->
  owed env chain header s' a vs = owed env chain header s a vs.
Proof.
  induction vs as [|v vs IH]; intros Hsame; simpl; [done|].
  rewrite Hsame by apply list_elem_of_here.
  rewrite IH; [done|]. intros v' Hv'. apply Hsame. apply elem_of_cons. by right.
Qed.

Lemma paidOut_NoDup vs : forall s,
  NoDup vs ->
  (forall v, v ∈ vs -> is_Some (state.validators s !! v)) ->
  (forall a,
     state.validators (paidOut env chain header vs s) !! a =
     if decide (a ∈ vs) then paidWrapper env chain header <$> state.validators s !! a
     else state.validators s !! a) /\
  (forall a,
     balance a (paidOut env chain header vs s)
     = balance a s + owed env chain header s a vs).
Proof.
  induction vs as [|v vs IH]; intros s Hnd Hall; simpl.
  - split; intros a; [|lia].
    destruct (decide (a ∈ [])) as [H|]; [by apply elem_of_nil in H|done].
  - apply NoDup_cons in Hnd as [Hv_notin Hnd].
    destruct (Hall v) as [wrapper Hv]; [apply list_elem_of_here|]. rewrite Hv.
    set (s1 := creditAll _ _).
    assert (Hs1 : forall a, a <> v -> state.validators s1 !! a = state.validators s !! a).
    { intros a Hne. subst s1. rewrite creditAll_validators. simpl.
      by rewrite lookup_insert_ne. }
    assert (Hs1v : state.validators s1 !! v = Some (paidWrapper env chain header wrapper)).
    { subst s1. rewrite creditAll_validators. simpl. by rewrite lookup_insert_eq. }
    destruct (IH s1 Hnd) as [IHv IHb].
    { intros v' Hv'. rewrite Hs1; [|intros ->; done]. apply Hall.
      apply elem_of_cons. by right. }
    split; intros a.
    + rewrite IHv. destruct (decide (a = v)) as [->|Hne].
      * rewrite decide_False by done. rewrite decide_True by apply list_elem_of_here.
        by rewrite Hs1v, Hv.
      * rewrite Hs1 by done.
        destruct (decide (a ∈ vs)) as [Ha|Ha].
        -- rewrite decide_True; [done|]. apply elem_of_cons. by right.
        -- rewrite decide_False; [done|]. intros [->|?]%elem_of_cons; done.
    + rewrite IHb. subst s1. rewrite creditAll_balance.
      rewrite (owed_same s); [|].
      * unfold balance. simpl. lia.
      * intros v' Hv'. rewrite creditAll_validators. simpl.
        rewrite lookup_insert_ne; [done|]. intros ->. done.
Qed.
End PaidOutFacts.

(** X8: the state payoutUndelegations leaves is the state [paidOut] of the
    validators the chain lists: each listed validator found in the state, in
    order, has every delegation replaced by what RemoveUnlockedUndelegations
    returns for it (at the header's epoch, with the validator's
    LastEpochInCommittee, the lock period of GetLockPeriodInEpoch and the
    NoEarlyUnlock flag), and every non-zero total is credited to the
    delegator of the delegation; the payout stops at the first listed
    validator that is not in the state, and does nothing when the list
    cannot be read. *)
Theorem payoutUndelegations_paidOut env chain header w :
  statedb (payoutUndelegations env chain header w).2 =
  match engine.ReadValidatorList chain with
  | Ok vs => paidOut env chain header vs (statedb w)
  | Err _ => statedb w
  end.
Proof.
  pose proof (payoutUndelegations_run env chain header w) as H. simpl in H.
  destruct (engine.ReadValidatorList chain) as [vs|e].
  - apply H.
  - by rewrite H.
Qed.

(** X9: payoutUndelegations fails with "failed to read all validators"
    when the chain cannot list the validators, leaving the state as it was;
    otherwise it succeeds exactly when every listed validator is in the
    state it starts in, and its only other error is the validator lookup
    failure. *)
Theorem payoutUndelegations_verdict env chain header w :
  let r := payoutUndelegations env chain header w in
  match engine.ReadValidatorList chain with
  | Err _ =>
      r.1 = Err (errors.New "[Finalize] failed to read all validators") /\
      statedb r.2 = statedb w
  | Ok vs =>
      (r.1 = Ok tt <-> forall v, v ∈ vs -> is_Some (state.validators (statedb w) !! v)) /\
      (forall e, r.1 = Err e -> e = validatorLookupFailure)
  end.
Proof.
  pose proof (payoutUndelegations_run env chain header w) as H. simpl in *.
  destruct (engine.ReadValidatorList chain) as [vs|e].
  - apply H.
  - by rewrite H.
Qed.

(** X10: when the listed validators are distinct and the payout succeeds,
    the wrapper of every listed validator is its wrapper in the starting
    state with every delegation released (LastEpochInCommittee and the
    number and order of the delegations unchanged), and every other wrapper
    is untouched. *)
Theorem payoutUndelegations_wrappers env chain header vs w :
  engine.ReadValidatorList chain = Ok vs ->
  NoDup vs ->
  let r := payoutUndelegations env chain header w in
  r.1 = Ok tt ->
  forall a,
    state.validators (statedb r.2) !! a =
    if decide (a ∈ vs)
    then paidWrapper env chain header <$> state.validators (statedb w) !! a
    else state.validators (statedb w) !! a.
Proof.
  intros Hvs Hnd r Hok a. subst r.
  pose proof (payoutUndelegations_run env chain header w) as H. simpl in H.
  rewrite Hvs in H. destruct H as (Hst & Hiff & _). rewrite Hst.
  apply paidOut_NoDup; [done|]. by apply Hiff.
Qed.

Lemma payoutUndelegations_wrappers_witness :
  state.validators
    (statedb (payoutUndelegations Run.env0 (Run.mkChain 0 100 200) Run.rolloverHeader
                (Run.world0 Run.stakedDB)).2) !! 1%N
  = paidWrapper Run.env0 (Run.mkChain 0 100 200) Run.rolloverHeader
      <$> state.validators Run.stakedDB !! 1%N.
Proof.
  apply (payoutUndelegations_wrappers Run.env0 (Run.mkChain 0 100 200) Run.rolloverHeader
           [1%N; 2%N] (Run.world0 Run.stakedDB) eq_refl).
  - apply NoDup_cons. split; [|apply NoDup_singleton].
    intros H%list_elem_of_singleton. discriminate.
  - reflexivity.
Defined.

(** X11: when the listed validators are distinct and the payout succeeds,
    the balance of every account grows by exactly what the payout owes it:
    the sum of the non-zero totals RemoveUnlockedUndelegations returns for
    the delegations of the listed validators whose delegator is the
    account; an account that is owed nothing keeps its balance. *)
Theorem payoutUndelegations_balances env chain header vs w :
  engine.ReadValidatorList chain = Ok vs ->
  NoDup vs ->
  let r := payoutUndelegations env chain header w in
  r.1 = Ok tt ->
  forall a,
    balance a (statedb r.2) = balance a (statedb w) + owed env chain header (statedb w) a vs.
Proof.
  intros Hvs Hnd r Hok a. subst r.
  pose proof (payoutUndelegations_run env chain header w) as H. simpl in H.
  rewrite Hvs in H. destruct H as (Hst & Hiff & _). rewrite Hst.
  apply paidOut_NoDup; [done|]. by apply Hiff.
Qed.

Lemma payoutUndelegations_balances_witness :
  balance 9%N
    (statedb (payoutUndelegations Run.env0 (Run.mkChain 0 100 200) Run.rolloverHeader
                (Run.world0 Run.stakedDB)).2)
  = balance 9%N Run.stakedDB
    + owed Run.env0 (Run.mkChain 0 100 200) Run.rolloverHeader Run.stakedDB 9%N [1%N; 2%N].
Proof.
  apply (payoutUndelegations_balances Run.env0 (Run.mkChain 0 100 200) Run.rolloverHeader
           [1%N; 2%N] (Run.world0 Run.stakedDB) eq_refl).
  - apply NoDup_cons. split; [|apply NoDup_singleton].
    intros H%list_elem_of_singleton. discriminate.
  - reflexivity.
Defined.

(** ** The update of LastEpochInCommittee *)

Lemma setLastEpochInCommittee_loop_frame ep l : forall w,
  let r := forM_ l (fun addr =>
             wrapper ← stateValidatorWrapper addr;
             _ ← log (EvSetLastEpochInCommittee addr ep);
             modifyDB (state.setValidatorWrapper addr
               {| staking.LastEpochInCommittee := ep;
                  staking.Delegations := staking.Delegations wrapper |})) w in
  (r.1 = Ok tt <-> forall a, a ∈ l -> is_Some (state.validators (statedb w) !! a)) /\
  (forall e, r.1 = Err e -> e = validatorLookupFailure) /\
  state.balances (statedb r.2) = state.balances (statedb w) /\
  (forall a, a ∉ l ->
     state.validators (statedb r.2) !! a = state.validators (statedb w) !! a) /\
  (forall a,
     staking.Delegations <$> state.validators (statedb r.2) !! a
     = staking.Delegations <$> state.validators (statedb w) !! a).
Proof.
  induction l as [|v l IH]; intros w; simpl.
  - split; [|done]. split; [|done]. intros _ a Ha. by apply elem_of_nil in Ha.
  - rewrite bind_run, setLastEpochInCommittee_body.
    destruct (state.validators (statedb w) !! v) as [wrapper|] eqn:Hv; simpl.
    + match goal with |- context [forM_ l ?f ?w1] =>
        destruct (IH w1) as (I1 & I2 & I3 & I4 & I5); set (w' := w1) in * end.
      assert (Hdel : forall a,
        staking.Delegations <$> state.validators (statedb w') !! a
        = staking.Delegations <$> state.validators (statedb w) !! a).
      { intros a. subst w'. simpl. destruct (decide (v = a)) as [<-|Hne].
        - by rewrite lookup_insert_eq, Hv.
        - by rewrite lookup_insert_ne. }
      assert (Hsome : forall a,
        is_Some (state.validators (statedb w') !! a)
        <-> is_Some (state.validators (statedb w) !! a)).
      { intros a. rewrite <- !(fmap_is_Some staking.Delegations). by rewrite Hdel. }
      split; [|split; [exact I2|split; [exact I3|split]]].
      * rewrite I1. split.
        -- intros Hall a [->|Ha]%elem_of_cons; [by rewrite Hv|]. by apply Hsome, Hall.
        -- intros Hall a Ha. apply Hsome, Hall. apply elem_of_cons. by right.
      * intros a [Hne Ha]%not_elem_of_cons. rewrite I4 by done.
        subst w'. simpl. by rewrite lookup_insert_ne.
      * intros a. by rewrite I5, Hdel.
    + split; [|split; [by intros e [= <-]|done]].
      split; [done|]. intros Hall.
      destruct (Hall v) as [x Hx]; [apply list_elem_of_here|]. congruence.
Qed.

(** X12: setLastEpochInCommittee fails with "failed to read shard state",
    touching nothing, when the header's shard state cannot be read;
    otherwise it succeeds exactly when every staked validator of that shard
    state is in the state, its only error being the validator lookup
    failure; and whatever it returns, it changes no balance, no wrapper of
    a validator outside the staked list and no delegation of any
    wrapper. *)
Theorem setLastEpochInCommittee_frame header w :
  let r := setLastEpochInCommittee header w in
  match block.GetShardState header with
  | Err _ => r = (Err (errors.New "[Finalize] failed to read shard state"), w)
  | Ok newShardState =>
      (r.1 = Ok tt <->
       forall a, a ∈ shard.StakedValidators newShardState ->
         is_Some (state.validators (statedb w) !! a)) /\
      (forall e, r.1 = Err e -> e = validatorLookupFailure) /\
      state.balances (statedb r.2) = state.balances (statedb w) /\
      (forall a, a ∉ shard.StakedValidators newShardState ->
         state.validators (statedb r.2) !! a = state.validators (statedb w) !! a) /\
      (forall a,
         staking.Delegations <$> state.validators (statedb r.2) !! a
         = staking.Delegations <$> state.validators (statedb w) !! a)
  end.
Proof.
  unfold setLastEpochInCommittee.
  destruct (block.GetShardState header) as [ss|e]; [|done].
  apply setLastEpochInCommittee_loop_frame.
Qed.

(** ** The groups of applySlashes *)

Lemma groupLookup_groupAppend k k' r g :
  groupLookup k' (groupAppend k r g) =
  if decide (k' = k) then groupLookup k' g ++ [r] else groupLookup k' g.
Proof.
  induction g as [|[k0 rs] g IH]; simpl.
  - by destruct (decide (k' = k)).
  - destruct (decide (k = k0)) as [->|Hne]; simpl.
    + by destruct (decide (k' = k0)).
    + rewrite IH. destruct (decide (k' = k0)) as [->|]; [|done].
      by rewrite decide_False.
Qed.

Lemma groupAppend_keys k r g :
  map fst (groupAppend k r g) =
  if decide (k ∈ map fst g) then map fst g else map fst g ++ [k].
Proof.
  induction g as [|[k0 rs] g IH].
  - simpl. destruct (decide (k ∈ [])) as [H|]; [by apply elem_of_nil in H|done].
  - cbn [groupAppend map fst]. destruct (decide (k = k0)) as [->|Hne].
    + cbn [map fst]. rewrite decide_True; [done|]. apply list_elem_of_here.
    + cbn [map fst]. rewrite IH. destruct (decide (k ∈ map fst g)) as [Hin|Hnin].
      * rewrite decide_True; [done|]. apply elem_of_cons. by right.
      * rewrite decide_False; [done|]. intros [?|?]%elem_of_cons; done.
Qed.

Lemma groupAppend_records k r g :
  concat (map snd (groupAppend k r g)) ≡ₚ r :: concat (map snd g).
Proof.
  induction g as [|[k0 rs] g IH]; simpl; [done|].
  destruct (decide (k = k0)); simpl.
  - rewrite <- app_assoc. simpl. by rewrite <- Permutation_middle.
  - rewrite IH. by rewrite <- Permutation_middle.
Qed.

Lemma groupRecords_fold ds : forall g,
  let g' := fold_left (fun g r => groupAppend (thisKey r) r g) ds g in
  (forall k, groupLookup k g' = groupLookup k g ++ filter (fun r => thisKey r = k) ds) /\
  (forall k, k ∈ map fst g' <-> k ∈ map fst g \/ exists r, r ∈ ds /\ thisKey r = k) /\
  (NoDup (map fst g) -> NoDup (map fst g')) /\
  concat (map snd g') ≡ₚ concat (map snd g) ++ ds.
Proof.
  induction ds as [|r ds IH]; intros g; simpl.
  - split; [intros k; by rewrite app_nil_r|]. split; [|by rewrite app_nil_r].
    intros k. split; [by left|]. intros [?|(r & Hr & _)]; [done|]. by apply elem_of_nil in Hr.
  - destruct (IH (groupAppend (thisKey r) r g)) as (I1 & I2 & I3 & I4).
    split; [|split; [|split]].
    + intros k. rewrite I1, groupLookup_groupAppend, filter_cons.
      destruct (decide (k = thisKey r)) as [->|Hne].
      * rewrite decide_True by done. by rewrite <- app_assoc.
      * rewrite decide_False by done. done.
    + intros k. rewrite I2, groupAppend_keys.
      destruct (decide (thisKey r ∈ map fst g)) as [Hin|Hnin].
      * split.
        -- intros [?|(r' & Hr' & Hk)]; [by left|]. right. exists r'.
           split; [|done]. apply elem_of_cons. by right.
        -- intros [?|(r' & [->|Hr']%elem_of_cons & Hk)]; [by left| |].
           ++ left. by rewrite <- Hk.
           ++ right. by exists r'.
      * rewrite elem_of_app, list_elem_of_singleton. split.
        -- intros [[?| ->]|(r' & Hr' & Hk)]; [by left| |].
           ++ right. exists r. split; [apply list_elem_of_here|done].
           ++ right. exists r'. split; [|done]. apply elem_of_cons. by right.
        -- intros [?|(r' & [->|Hr']%elem_of_cons & Hk)]; [by left;left| |].
           ++ left. by right.
           ++ right. by exists r'.
    + intros Hnd. apply I3. rewrite groupAppend_keys.
      destruct (decide (thisKey r ∈ map fst g)) as [Hin|Hnin]; [done|].
      apply NoDup_app. split; [done|]. split; [|apply NoDup_singleton].
      intros k Hk ->%list_elem_of_singleton. done.
    + rewrite I4, groupAppend_records. simpl. by rewrite <- Permutation_middle.
Qed.

Lemma groupRecords_facts ds :
  NoDup (map fst (groupRecords ds)) /\
  (forall k, k ∈ map fst (groupRecords ds) <-> exists r, r ∈ ds /\ thisKey r = k) /\
  (forall k, groupLookup k (groupRecords ds) = filter (fun r => thisKey r = k) ds) /\
  concat (map snd (groupRecords ds)) ≡ₚ ds.
Proof.
  destruct (groupRecords_fold ds []) as (I1 & I2 & I3 & I4). simpl in *.
  split; [apply I3, NoDup_nil_2|]. split; [|split; [exact I1|exact I4]].
  intros k. rewrite (I2 k). split; [|by right].
  intros [H|H]; [by apply elem_of_nil in H|done].
Qed.

(** X13: applySlashes groups the records by key without losing or
    repeating any: the keys of the groups are distinct and are exactly the
    keys of the records, and the group of a key holds exactly the records
    with that key, in the order they were given. *)
Theorem groupRecords_partition ds :
  NoDup (map fst (groupRecords ds)) /\
  (forall k, k ∈ map fst (groupRecords ds) <-> exists r, r ∈ ds /\ thisKey r = k) /\
  (forall k, groupLookup k (groupRecords ds) = filter (fun r => thisKey r = k) ds).
Proof. destruct (groupRecords_facts ds) as (H1 & H2 & H3 & _). done. Qed.

(** X14: the grouping does not depend on the order of the records but for
    the order inside a group and the order of the keys: two lists of records
    that are permutations of each other give the same keys, and for every
    key groups that are permutations of each other. *)
Theorem groupRecords_Permutation ds ds' :
  ds ≡ₚ ds' ->
  map fst (groupRecords ds) ≡ₚ map fst (groupRecords ds') /\
  forall k, groupLookup k (groupRecords ds) ≡ₚ groupLookup k (groupRecords ds').
Proof.
  intros Hp.
  destruct (groupRecords_facts ds) as (N1 & K1 & L1 & _).
  destruct (groupRecords_facts ds') as (N2 & K2 & L2 & _).
  split.
  - apply NoDup_Permutation; [done..|]. intros k. rewrite K1, K2.
    split; intros (r & Hr & Hk); exists r; (split; [|done]).
    + by rewrite <- Hp.
    + by rewrite Hp.
  - intros k. rewrite L1, L2. by rewrite Hp.
Qed.

Lemma groupRecords_Permutation_witness :
  map fst (groupRecords [Run.evidenceAt 1 10 2; Run.evidenceAt 0 10 2])
  ≡ₚ map fst (groupRecords [Run.evidenceAt 0 10 2; Run.evidenceAt 1 10 2]).
Proof.
  apply (groupRecords_Permutation [Run.evidenceAt 1 10 2; Run.evidenceAt 0 10 2]
           [Run.evidenceAt 0 10 2; Run.evidenceAt 1 10 2]).
  apply Permutation_swap.
Defined.

(** ** The library sort *)

Section SortFacts.
Context {A : Type}.
Implicit Types (lt : A -> A -> bool) (l : list A).

Lemma insertBack_Permutation lt x revPrefix :
  insertBack lt x revPrefix ≡ₚ x :: revPrefix.
Proof.
  induction revPrefix as [|y rest IH]; simpl; [done|].
  destruct (lt x y); [|done]. rewrite IH. apply Permutation_swap.
Qed.

Lemma insertionSort_fold_Permutation lt l : forall acc,
  fold_left (fun revPrefix x => insertBack lt x revPrefix) l acc ≡ₚ acc ++ l.
Proof.
  induction l as [|x l IH]; intros acc; simpl; [by rewrite app_nil_r|].
  rewrite IH, insertBack_Permutation. simpl. by rewrite <- Permutation_middle.
Qed.

Lemma insertionSort_Permutation lt l : insertionSort lt l ≡ₚ l.
Proof.
  unfold insertionSort. rewrite <- Permutation_rev.
  by rewrite insertionSort_fold_Permutation.
Qed.

Lemma insertBack_ext lt lt' x revPrefix :
  (forall b, b ∈ revPrefix -> lt x b = lt' x b) ->
  insertBack lt x revPrefix = insertBack lt' x revPrefix.
Proof.
  induction revPrefix as [|y rest IH]; intros Hext; simpl; [done|].
  rewrite Hext by apply list_elem_of_here.
  rewrite IH; [done|]. intros b Hb. apply Hext. apply elem_of_cons. by right.
Qed.

Lemma insertionSort_fold_ext lt lt' l : forall acc,
  (forall a b, a ∈ acc ++ l -> b ∈ acc ++ l -> lt a b = lt' a b) ->
  fold_left (fun revPrefix x => insertBack lt x revPrefix) l acc
  = fold_left (fun revPrefix x => insertBack lt' x revPrefix) l acc.
Proof.
  induction l as [|x l IH]; intros acc Hext; simpl; [done|].
  rewrite (insertBack_ext lt lt').
  - apply IH. intros a b Ha Hb. apply Hext.
    + rewrite insertBack_Permutation in Ha. simpl in Ha.
      by rewrite <- Permutation_middle.
    + rewrite insertBack_Permutation in Hb. simpl in Hb.
      by rewrite <- Permutation_middle.
  - intros b Hb. apply Hext; rewrite elem_of_app; [right|left; done].
    apply list_elem_of_here.
Qed.

Lemma insertionSort_ext lt lt' l :
  (forall a b, a ∈ l -> b ∈ l -> lt a b = lt' a b) ->
  insertionSort lt l = insertionSort lt' l.
Proof.
  intros Hext. unfold insertionSort. f_equal. by apply insertionSort_fold_ext.
Qed.

Context (f : A -> Z).

Lemma insertBack_sorted x revPrefix :
  StronglySorted (fun a b => f b <= f a) revPrefix ->
  StronglySorted (fun a b => f b <= f a)
    (insertBack (fun a b => f a <? f b) x revPrefix).
Proof.
  induction revPrefix as [|y rest IH]; intros Hs; simpl; [by repeat constructor|].
  apply StronglySorted_cons in Hs as [Hy Hs].
  destruct (Z.ltb_spec (f x) (f y)) as [Hlt|Hge].
  - apply StronglySorted_cons. split; [|by apply IH].
    rewrite insertBack_Permutation. constructor; [lia|done].
  - apply StronglySorted_cons. split.
    + constructor; [done|]. eapply Forall_impl; [exact Hy|]. simpl. intros b Hb. lia.
    + by apply StronglySorted_cons.
Qed.

Lemma StronglySorted_rev (R : A -> A -> Prop) l :
  StronglySorted R l -> StronglySorted (fun a b => R b a) (rev l).
Proof.
  induction l as [|x l IH]; intros Hs; simpl; [constructor|].
  apply StronglySorted_cons in Hs as [Hx Hs].
  apply StronglySorted_app. split; [|split; [by apply IH|by repeat constructor]].
  intros a b Ha ->%list_elem_of_singleton.
  rewrite Forall_forall in Hx. apply Hx. apply list_elem_of_In. apply list_elem_of_In, in_rev in Ha. exact Ha.
Qed.

Lemma insertionSort_sorted l :
  StronglySorted (fun a b => f a <= f b) (insertionSort (fun a b => f a <? f b) l).
Proof.
  unfold insertionSort.
  apply (StronglySorted_rev (fun a b => f b <= f a)).
  assert (H : forall acc, StronglySorted (fun a b => f b <= f a) acc ->
    StronglySorted (fun a b => f b <= f a)
      (fold_left (fun revPrefix x => insertBack (fun a b => f a <? f b) x revPrefix) l acc)).
  { induction l as [|x l IH]; intros acc Hacc; simpl; [done|].
    by apply IH, insertBack_sorted. }
  apply H. constructor.
Qed.
End SortFacts.

Lemma SliceStable_Permutation env lt l :
  (forall lt ks, stableLarge env lt ks ≡ₚ ks) -> SliceStable env lt l ≡ₚ l.
Proof.
  intros Hlarge. unfold SliceStable.
  destruct (length l <=? 20)%nat; [apply insertionSort_Permutation|apply Hlarge].
Qed.

Lemma sortedKeys_Permutation env ds :
  (forall ks, mapRange env ks ≡ₚ ks) ->
  (forall lt ks, stableLarge env lt ks ≡ₚ ks) ->
  sortedKeys env ds ≡ₚ map fst (groupRecords ds).
Proof.
  intros Hrange Hlarge. unfold sortedKeys.
  by rewrite SliceStable_Permutation, Hrange.
Qed.

Lemma groupAppend_length k r g : (length (groupAppend k r g) <= S (length g))%nat.
Proof.
  induction g as [|[k0 rs] g IH]; simpl; [lia|].
  destruct (decide (k = k0)); simpl; lia.
Qed.

Lemma groupRecords_length ds : (length (groupRecords ds) <= length ds)%nat.
Proof.
  unfold groupRecords.
  assert (H : forall g, (length (fold_left (fun g r => groupAppend (thisKey r) r g) ds g)
                         <= length g + length ds)%nat).
  { induction ds as [|r ds IH]; intros g; simpl; [lia|].
    specialize (IH (groupAppend (thisKey r) r g)).
    pose proof (groupAppend_length (thisKey r) r g). lia. }
  apply (H []).
Qed.

Lemma groupLookup_keys g :
  NoDup (map fst g) -> map (fun k => groupLookup k g) (map fst g) = map snd g.
Proof.
  induction g as [|[k0 rs] g IH]; intros Hnd; simpl; [done|].
  apply NoDup_cons in Hnd as [Hk0 Hnd].
  rewrite decide_True by done. f_equal.
  rewrite <- IH by done. apply map_ext_in. intros k Hk%list_elem_of_In.
  rewrite decide_False; [done|]. intros ->. done.
Qed.

(** ** The calls of applySlashes *)

Section ApplyLoop.
Variables (env : Env) (chain : engine.ChainReader).
Variable g : list (keyStruct * slash.Records).

Let body (key : keyStruct) : M unit :=
  let records := groupLookup key g in
  superCommittee ←
    mapErr (fun _ => errors.New "could not read shard state")
      (call (EvReadShardState (toInt64 (epoch key)))
         (engine.ReadShardState chain (toInt64 (epoch key))));
  subComm ←
    mapErr (fun _ => errors.New "could not find shard committee")
      (lift (shard.FindCommitteeByID superCommittee (shardID key)));
  votingPower ←
    mapErr (fun err =>
              errors.Wrap err "could not lookup cached voting power in slash application")
      (lift (lookupVotingPower env (toInt64 (epoch key)) subComm));
  let rate := Rate env votingPower records in
  _ ← mapErr (fun _ => errors.New "[Finalize] could not apply slash")
        (callDB (EvSlashApply records rate)
           (fun s => Apply env chain s records rate));
  mret tt.

Lemma applySlashes_body key w :
  exists t,
    trace (body key w).2 = trace w ++ t /\
    (appliedGroups t = [] \/ appliedGroups t = [groupLookup key g]) /\
    ((body key w).1 = Ok tt -> appliedGroups t = [groupLookup key g]) /\
    (appliedGroups t = [] -> (body key w).1 <> Ok tt).
Proof.
  unfold body, mbind, M_bind, mapErr, call, callDB, lift, mret, M_ret. simpl.
  destruct (engine.ReadShardState chain (toInt64 (epoch key))) as [ss|e]; simpl;
    [|eexists [_]; split; [done|]; split; [by left|]; split; done].
  destruct (shard.FindCommitteeByID ss (shardID key)) as [comm|e]; simpl;
    [|eexists [_]; split; [done|]; split; [by left|]; split; done].
  destruct (lookupVotingPower env (toInt64 (epoch key)) comm) as [vp|e]; simpl;
    [|eexists [_]; split; [done|]; split; [by left|]; split; done].
  destruct (Apply env chain (statedb _) (groupLookup key g) _) as [[app|e] s]; simpl.
  - eexists [_; _]. split; [by rewrite <- app_assoc|]. split; [by right|]. split; done.
  - eexists [_; _]. split; [by rewrite <- app_assoc|]. split; [by right|]. split; done.
Qed.

Lemma appliedGroups_app t t' : appliedGroups (t ++ t') = appliedGroups t ++ appliedGroups t'.
Proof. unfold appliedGroups. apply flat_map_app. Qed.

Lemma applySlashes_loop keys : forall w,
  exists t n,
    trace (forM_ keys body w).2 = trace w ++ t /\
    appliedGroups t = map (fun k => groupLookup k g) (take n keys) /\
    ((forM_ keys body w).1 = Ok tt ->
     appliedGroups t = map (fun k => groupLookup k g) keys).
Proof.
  induction keys as [|key keys IH]; intros w; simpl.
  - exists [], 0%nat. by rewrite app_nil_r.
  - rewrite bind_run.
    destruct (applySlashes_body key w) as (t1 & Et1 & Hcase & Hok & Hnone).
    destruct (body key w) as [[[]|e] w1] eqn:Hb; simpl in *.
    + destruct (IH w1) as (t2 & n & Et2 & Hn & Hall).
      exists (t1 ++ t2), (S n). rewrite Et2, Et1, app_assoc. split; [done|].
      rewrite appliedGroups_app, Hok by done. simpl. split; [by rewrite Hn|].
      intros Hf. by rewrite Hall.
    + destruct Hcase as [Hc|Hc].
      * exists t1, 0%nat. by rewrite Hc.
      * exists t1, 1%nat. by rewrite Hc.
Qed.
End ApplyLoop.

(** X15: whatever the order a map is ranged over and whatever the sort
    does with the keys, as long as both only permute them, applySlashes
    calls slash.Apply on the groups of a prefix of the sorted keys, one call
    per key in that order; and when it returns without error the calls
    cover every group exactly once, so that the records handed to
    slash.Apply are, together, a permutation of the double signers. *)
Theorem applySlashes_each_group_once env chain header doubleSigners w :
  (forall ks, mapRange env ks ≡ₚ ks) ->
  (forall lt ks, stableLarge env lt ks ≡ₚ ks) ->
  let r := applySlashes env chain header doubleSigners w in
  exists t n,
    trace r.2 = trace w ++ EvApplySlashes doubleSigners :: t /\
    appliedGroups t =
      map (fun k => groupLookup k (groupRecords doubleSigners))
        (take n (sortedKeys env doubleSigners)) /\
    (r.1 = Ok tt ->
     appliedGroups t ≡ₚ map snd (groupRecords doubleSigners) /\
     concat (appliedGroups t) ≡ₚ doubleSigners).
Proof.
  intros Hrange Hlarge r. subst r.
  destruct (applySlashes_loop env chain (groupRecords doubleSigners)
              (sortedKeys env doubleSigners) (logEvent (EvApplySlashes doubleSigners) w))
    as (t & n & Et & Hn & Hall).
  exists t, n. split; [|split; [exact Hn|]].
  - transitivity (trace (logEvent (EvApplySlashes doubleSigners) w) ++ t); [exact Et|].
    simpl. by rewrite <- app_assoc.
  - intros Hok. specialize (Hall Hok).
    destruct (groupRecords_facts doubleSigners) as (Hnd & _ & _ & Hrec).
    assert (Hp : appliedGroups t ≡ₚ map snd (groupRecords doubleSigners)).
    { rewrite Hall, <- (groupLookup_keys _ Hnd).
      apply Permutation_map. by apply sortedKeys_Permutation. }
    split; [exact Hp|]. rewrite <- Hrec. clear -Hp.
    induction Hp; simpl; [done| | |].
    + by rewrite IHHp.
    + rewrite !app_assoc. by rewrite (Permutation_app_comm y x).
    + by rewrite IHHp1.
Qed.

Lemma applySlashes_each_group_once_witness :
  exists t n,
    trace (applySlashes Run.env0 (Run.mkChain 0 100 200) Run.rolloverHeader
             [Run.evidenceAt 1 10 2; Run.evidenceAt 0 10 2] (Run.world0 Run.emptyDB)).2
    = trace (Run.world0 Run.emptyDB)
      ++ EvApplySlashes [Run.evidenceAt 1 10 2; Run.evidenceAt 0 10 2] :: t /\
    appliedGroups t =
      map (fun k => groupLookup k
                      (groupRecords [Run.evidenceAt 1 10 2; Run.evidenceAt 0 10 2]))
        (take n (sortedKeys Run.env0 [Run.evidenceAt 1 10 2; Run.evidenceAt 0 10 2])).
Proof.
  destruct (applySlashes_each_group_once Run.env0 (Run.mkChain 0 100 200)
              Run.rolloverHeader [Run.evidenceAt 1 10 2; Run.evidenceAt 0 10 2]
              (Run.world0 Run.emptyDB)) as (t & n & H1 & H2 & _).
  - intros ks. reflexivity.
  - intros lt ks. reflexivity.
  - exists t, n. split; [exact H1|exact H2].
Defined.

(** ** When the order of the groups is the sorted order *)

Lemma less_one_field (ks : list keyStruct) :
  ((forall a b, a ∈ ks -> b ∈ ks -> shardID a = shardID b /\ height a = height b) ->
   forall a b, a ∈ ks -> b ∈ ks -> less a b = (viewID a <? viewID b)) /\
  ((forall a b, a ∈ ks -> b ∈ ks -> shardID a = shardID b /\ viewID a = viewID b) ->
   forall a b, a ∈ ks -> b ∈ ks -> less a b = (height a <? height b)) /\
  ((forall a b, a ∈ ks -> b ∈ ks -> height a = height b /\ viewID a = viewID b) ->
   forall a b, a ∈ ks -> b ∈ ks -> less a b = (shardID a <? shardID b)).
Proof.
  split; [|split]; intros Hsame a b Ha Hb; destruct (Hsame a b Ha Hb) as [H1 H2];
    unfold less; rewrite ?H1, ?H2, ?Z.ltb_irrefl.
  - by destruct (viewID a <? viewID b).
  - by destruct (height a <? height b).
  - by destruct (shardID a <? shardID b).
Qed.

(** X16: for at most 20 records whose keys differ in one field only, the
    groups come out sorted, whatever the order the map is ranged over: in
    ascending viewID when the records share shardID and height, in
    ascending height when they share shardID and viewID, in ascending
    shardID when they share height and viewID. *)
Theorem sortedKeys_one_field env doubleSigners :
  (forall ks, mapRange env ks ≡ₚ ks) ->
  (length doubleSigners <= 20)%nat ->
  let ks := map thisKey doubleSigners in
  ((forall a b, a ∈ ks -> b ∈ ks -> shardID a = shardID b /\ height a = height b) ->
   StronglySorted (fun a b => viewID a <= viewID b) (sortedKeys env doubleSigners)) /\
  ((forall a b, a ∈ ks -> b ∈ ks -> shardID a = shardID b /\ viewID a = viewID b) ->
   StronglySorted (fun a b => height a <= height b) (sortedKeys env doubleSigners)) /\
  ((forall a b, a ∈ ks -> b ∈ ks -> height a = height b /\ viewID a = viewID b) ->
   StronglySorted (fun a b => shardID a <= shardID b) (sortedKeys env doubleSigners)).
Proof.
  intros Hrange Hlen ks.
  set (keys := mapRange env (map fst (groupRecords doubleSigners))).
  assert (Hkeys : forall a, a ∈ keys -> a ∈ ks).
  { intros a Ha. subst keys. rewrite Hrange in Ha.
    destruct (groupRecords_facts doubleSigners) as (_ & Hk & _).
    apply Hk in Ha as (r & Hr & <-). subst ks.
    apply list_elem_of_In, in_map, list_elem_of_In, Hr. }
  assert (Hsort : sortedKeys env doubleSigners = insertionSort less keys).
  { unfold sortedKeys, SliceStable. fold keys.
    assert (Hl : (length keys <= 20)%nat).
    { subst keys. rewrite Hrange. rewrite length_map.
      pose proof (groupRecords_length doubleSigners). lia. }
    apply Nat.leb_le in Hl. by rewrite Hl. }
  rewrite Hsort.
  destruct (less_one_field keys) as (L1 & L2 & L3).
  split; [|split]; intros Hsame.
  - rewrite (insertionSort_ext less (fun a b => viewID a <? viewID b)).
    + apply insertionSort_sorted.
    + apply L1. intros a b Ha Hb. apply Hsame; by apply Hkeys.
  - rewrite (insertionSort_ext less (fun a b => height a <? height b)).
    + apply insertionSort_sorted.
    + apply L2. intros a b Ha Hb. apply Hsame; by apply Hkeys.
  - rewrite (insertionSort_ext less (fun a b => shardID a <? shardID b)).
    + apply insertionSort_sorted.
    + apply L3. intros a b Ha Hb. apply Hsame; by apply Hkeys.
Qed.

Lemma sortedKeys_one_field_witness :
  StronglySorted (fun a b => viewID a <= viewID b)
    (sortedKeys Run.env0 [Run.evidenceAt 0 10 3; Run.evidenceAt 0 10 1; Run.evidenceAt 0 10 2]).
Proof.
  destruct (sortedKeys_one_field Run.env0
              [Run.evidenceAt 0 10 3; Run.evidenceAt 0 10 1; Run.evidenceAt 0 10 2])
    as [H _].
  - intros ks. reflexivity.
  - simpl. lia.
  - apply H. intros a b Ha Hb. simpl in Ha, Hb.
    repeat (apply elem_of_cons in Ha as [->|Ha]); try (by apply elem_of_nil in Ha);
    repeat (apply elem_of_cons in Hb as [->|Hb]); try (by apply elem_of_nil in Hb);
    done.
Defined.

(** ** The block Finalize returns *)

(** X17: when Finalize returns a block, its header is the given header
    with the view id set to the one supplied and the root set to the
    intermediate root of the state Finalize leaves, computed with the S3
    flag of the header's epoch, as the last call of the run; the
    transactions, receipts and staking transactions are the ones given; and
    the reward accumulation has returned without error. *)
Theorem Finalize_block
    env chain header txs receipts outcxs incxs stks doubleSigners sigsReady viewID w :
  let r := Finalize env chain header txs receipts outcxs incxs stks
             doubleSigners sigsReady viewID w in
  let isS3 := params.IsS3 (engine.Config chain) (block.Epoch header) in
  forall b payout,
    r.1 = Ok (b, payout) ->
    b = {| types.header :=
             block.SetRoot (block.SetViewID header (Uint64 viewID))
               (IntermediateRoot env (statedb r.2) isS3);
           types.txs := txs; types.receipts := receipts; types.outcxs := outcxs;
           types.incxs := incxs; types.stks := stks |} /\
    exists t,
      trace r.2 = trace w ++ t ++ [EvIntermediateRoot isS3] /\
      EvAccumulateRewardsAndCountSigs true ∈ t.
Proof.
  intros r isS3 b payout. subst r. unfold Finalize. fold isS3.
  rewrite bind_run.
  match goal with |- context [match ?m w with _ => _ end] =>
    assert (H1 : emits (fun _ => True) m) by
      (destruct (IsCommitteeSelectionBlock env chain header); [|apply emits_ret];
       apply emits_bind; [apply emits_payoutUndelegations; done|intros _];
       apply emits_bind; [apply emits_setLastEpochInCommittee; done|intros _];
       emits_steps; done);
    destruct (H1 w) as (t1 & Et1 & _); clear H1;
    destruct (m w) as [[[]|e1] w1] end; simpl in Et1; [|discriminate].
  rewrite bind_run. unfold accumulateRewards.
  destruct (AccumulateRewardsAndCountSigs env chain (statedb w1) header
              (Beaconchain (eng w1)) sigsReady) as [[p|e2] s2]; simpl; [|discriminate].
  rewrite bind_run.
  match goal with |- context [match ?m ?w2 with _ => _ end] =>
    assert (H3 : emits (fun _ => True) m) by
      (repeat match goal with |- emits _ (if ?c then _ else _) => destruct c end;
       [unfold applySlashes; emits_steps; done|apply emits_fail|apply emits_ret]);
    destruct (H3 w2) as (t3 & Et3 & _); clear H3;
    destruct (m w2) as [[[]|e3] w3] end; simpl in Et3; [|discriminate].
  simpl. intros [= <- <-]. split; [done|].
  exists (t1 ++ EvAccumulateRewardsAndCountSigs true :: t3). split.
  - rewrite Et3, Et1. by rewrite <- !app_assoc.
  - apply elem_of_app. right. apply list_elem_of_here.
Qed.

Lemma Finalize_block_witness :
  exists t,
    trace (Finalize Run.env0 (Run.mkChain 0 100 200) Run.rolloverHeader [] [] [] [] []
             [] true 7 (Run.world0 Run.stakedDB)).2
    = trace (Run.world0 Run.stakedDB) ++ t ++ [EvIntermediateRoot true] /\
    EvAccumulateRewardsAndCountSigs true ∈ t.
Proof.
  eapply (Finalize_block Run.env0 (Run.mkChain 0 100 200) Run.rolloverHeader [] [] [] [] []
            [] true 7 (Run.world0 Run.stakedDB)).
  reflexivity.
Defined.

(** X18: Finalize reads the validator list, pays out undelegations,
    updates LastEpochInCommittee and recomputes EPoS status only on a
    committee selection block: a beacon chain header that is the last block
    of its epoch, in the pre-staking era or later. *)
Theorem Finalize_rollover_only_on_selection
    env chain header txs receipts outcxs incxs stks doubleSigners sigsReady viewID w :
  let r := Finalize env chain header txs receipts outcxs incxs stks
             doubleSigners sigsReady viewID w in
  exists t,
    trace r.2 = trace w ++ t /\
    forall ev, ev ∈ t -> rolloverEvent ev ->
      (block.ShardID header =? BeaconChainShardID env) = true /\
      block.IsLastBlockInEpoch header = true /\
      params.IsPreStaking (engine.Config chain) (block.Epoch header) = true.
Proof.
  intros r. subst r.
  set (P := fun ev => rolloverEvent ev ->
    (block.ShardID header =? BeaconChainShardID env) = true /\
    block.IsLastBlockInEpoch header = true /\
    params.IsPreStaking (engine.Config chain) (block.Epoch header) = true).
  assert (H : emits P (Finalize env chain header txs receipts outcxs incxs stks
                         doubleSigners sigsReady viewID)).
  { unfold Finalize. apply emits_bind; [|intros _].
    - destruct (IsCommitteeSelectionBlock env chain header) eqn:Hsel; [|apply emits_ret].
      assert (Hall : forall ev, P ev).
      { intros ev _. unfold IsCommitteeSelectionBlock in Hsel.
        by apply andb_true_iff in Hsel as [[? ?]%andb_true_iff ?]. }
      apply emits_bind; [apply emits_payoutUndelegations; auto|intros _].
      apply emits_bind; [apply emits_setLastEpochInCommittee; auto|intros _].
      emits_steps; apply Hall.
    - apply emits_bind; [apply emits_accumulateRewards; by intros ok []|intros payout].
      unfold applySlashes. emits_steps; by intros []. }
  destruct (H w) as (t & Et & Ft). exists t. split; [exact Et|].
  intros ev Hev. rewrite Forall_forall in Ft. by apply Ft.
Qed.

(** X19: a run of Finalize that returns an error has not computed the
    state root: the root is taken only once the rollover, the rewards and
    the slashes have all gone through. *)
Theorem Finalize_failure_no_root
    env chain header txs receipts outcxs incxs stks doubleSigners sigsReady viewID w :
  let r := Finalize env chain header txs receipts outcxs incxs stks
             doubleSigners sigsReady viewID w in
  forall e,
    r.1 = Err e ->
    exists t,
      trace r.2 = trace w ++ t /\
      forall isS3, EvIntermediateRoot isS3 ∉ t.
Proof.
  intros r e. subst r. unfold Finalize.
  set (P := fun ev => forall isS3, ev <> EvIntermediateRoot isS3).
  assert (Hfin : forall t, Forall P t -> forall isS3, EvIntermediateRoot isS3 ∉ t).
  { intros t Ft isS3 Hin. rewrite Forall_forall in Ft. by apply (Ft _ Hin isS3). }
  rewrite bind_run.
  match goal with |- context [match ?m w with _ => _ end] =>
    assert (H1 : emits P m) by
      (destruct (IsCommitteeSelectionBlock env chain header); [|apply emits_ret];
       apply emits_bind;
         [apply emits_payoutUndelegations; intros ? [] Hp ?; by simpl in Hp|intros _];
       apply emits_bind;
         [apply emits_setLastEpochInCommittee; intros [] Hp ?; by simpl in Hp|intros _];
       emits_steps; by intros ?);
    destruct (H1 w) as (t1 & Et1 & Ft1); clear H1;
    destruct (m w) as [[[]|e1] w1] end; simpl in Et1;
    [|intros _; exists t1; split; [exact Et1|by apply Hfin]].
  rewrite bind_run. unfold accumulateRewards.
  destruct (AccumulateRewardsAndCountSigs env chain (statedb w1) header
              (Beaconchain (eng w1)) sigsReady) as [[p|e2] s2]; simpl.
  2:{ intros _. exists (t1 ++ [EvAccumulateRewardsAndCountSigs false]). split.
      - rewrite Et1. by rewrite <- app_assoc.
      - apply Hfin, Forall_app. split; [done|]. by repeat constructor. }
  rewrite bind_run.
  match goal with |- context [match ?m ?w2 with _ => _ end] =>
    assert (H3 : emits P m) by
      (repeat match goal with |- emits _ (if ?c then _ else _) => destruct c end;
       [unfold applySlashes; emits_steps; by intros ?|apply emits_fail|apply emits_ret]);
    destruct (H3 w2) as (t3 & Et3 & Ft3); clear H3;
    destruct (m w2) as [[[]|e3] w3] end; simpl in Et3; [simpl; discriminate|].
  intros _. exists (t1 ++ EvAccumulateRewardsAndCountSigs true :: t3). split.
  - simpl. rewrite Et3, Et1. by rewrite <- !app_assoc.
  - apply Hfin, Forall_app. split; [done|]. constructor; [done|done].
Qed.

Lemma Finalize_failure_no_root_witness :
  exists t,
    trace (Finalize Run.envRewardsFail (Run.mkChain 0 100 200) (Run.plainHeader 0) [] [] [] [] []
             [] true 7 (Run.world0 Run.emptyDB)).2
    = trace (Run.world0 Run.emptyDB) ++ t /\
    forall isS3, EvIntermediateRoot isS3 ∉ t.
Proof.
  eapply (Finalize_failure_no_root Run.envRewardsFail (Run.mkChain 0 100 200) (Run.plainHeader 0)
            [] [] [] [] [] [] true 7 (Run.world0 Run.emptyDB)).
  reflexivity.
Defined.
